(** * AgentMaps: the coordinate-pair reverser of [geojson_devutil.py]

    The two scripts read a whole file as text, apply

      [re.sub(re.compile("(-?[0-9]+\.[0-9]+),\n *(-?[0-9]+\.[0-9]+)"), r"\2,\n\1", text)]

    and write the result back through the same handle
    ([seek(0)], [write], [truncate]).

    The development embeds
    - the text as a list of code points,
    - the compiled pattern as a small regular-expression syntax tree and
      the backtracking matcher of Python's [re] for it (greedy
      single-character repeats, capture groups),
    - [re.match], the search loop of [re.sub] and replacement templates,
    - the text-mode file handle ([read], [seek], [write], [truncate]). *)

From Stdlib Require Import String Ascii List NArith Arith Bool Lia Permutation.
From Stdlib Require Strings.Byte.
Import ListNotations.
Local Open Scope list_scope.

(* ================================================================= *)
(** ** Text *)

(** A Python [str] is a sequence of code points. *)
Definition char := N.
Definition text := list char.

Definition ch (a : ascii) : char := N_of_ascii a.
Definition str (s : string) : text := map N_of_ascii (list_ascii_of_string s).
Arguments str s%_string.

Definition minus : char := Eval compute in ch "-".
Definition dot   : char := Eval compute in ch ".".
Definition comma : char := Eval compute in ch ",".
Definition space : char := Eval compute in ch " ".
Definition NL    : char := 10%N.
Definition CR    : char := 13%N.
Definition TAB   : char := 9%N.

(* ================================================================= *)
(** ** The regular-expression engine *)

Module Re.

(** Character sets: a literal, or a range as in [[0-9]]. *)
Inductive cset :=
| One (c : char)
| Range (lo hi : char).

Definition in_cset (p : cset) (c : char) : bool :=
  match p with
  | One x => N.eqb c x
  | Range lo hi => N.leb lo c && N.leb c hi
  end.

(** The constructs the pattern uses.  [Rep lo hi p] is a greedy repeat of
    a one-character item ([p?], [p*], [p+]); the engine compiles these to
    its single-item repeat, which first counts how far the item repeats
    and then tries the rest of the pattern from the longest count down. *)
Inductive regex :=
| Lit (c : char)
| Rep (lo : nat) (hi : option nat) (p : cset)
| Cat (r1 r2 : regex)
| Group (i : nat) (r : regex).

(** Captured groups, most recent first. *)
Definition groups := list (nat * text).

Fixpoint group (g : groups) (i : nat) : option text :=
  match g with
  | [] => None
  | (j, w) :: g' => if Nat.eqb i j then Some w else group g' i
  end.

(** Length of the longest prefix of [s] made of characters of [p]. *)
Fixpoint run_length (p : cset) (s : text) : nat :=
  match s with
  | c :: s' => if in_cset p c then S (run_length p s') else 0
  | [] => 0
  end.

Definition count (p : cset) (hi : option nat) (s : text) : nat :=
  match hi with
  | Some h => Nat.min h (run_length p s)
  | None => run_length p s
  end.

(** Try the continuation with [n] repetitions, then [n-1], ... down to [lo]. *)
Fixpoint retry {R} (k : nat -> option R) (lo n : nat) : option R :=
  match k n with
  | Some x => Some x
  | None =>
      match n with
      | 0 => None
      | S m => if lo <=? m then retry k lo m else None
      end
  end.

(** The text consumed between a position [s] and a later position [s']
    (both given as the remaining input). *)
Definition consumed (s s' : text) : text :=
  firstn (length s - length s') s.

(** The backtracking matcher, in continuation-passing style: [k] is the
    rest of the pattern; a [None] from it makes the matcher backtrack. *)
Fixpoint bt {R} (r : regex) (s : text) (g : groups)
    (k : text -> groups -> option R) : option R :=
  match r with
  | Lit c =>
      match s with
      | x :: s' => if N.eqb x c then k s' g else None
      | [] => None
      end
  | Rep lo hi p =>
      let n := count p hi s in
      if lo <=? n then retry (fun j => k (skipn j s) g) lo n else None
  | Cat r1 r2 => bt r1 s g (fun s' g' => bt r2 s' g' k)
  | Group i r => bt r s g (fun s' g' => k s' ((i, consumed s s') :: g'))
  end.

(** One attempt at the current position.  [adv] is the engine's
    must-advance flag: it refuses an empty match at this position. *)
Definition match_here (re : regex) (adv : bool) (s : text)
  : option (groups * text) :=
  bt re s [] (fun s' g =>
    if adv && (length s' =? length s) then None else Some (g, s')).

(** [re.match]: the pattern must match at the start of the string. *)
Definition re_match (re : regex) (s : text) : option (groups * text) :=
  match_here re false s.

(** The search: the leftmost position at which the pattern matches.
    Returns the text skipped, the groups and the text after the match. *)
Fixpoint search (re : regex) (adv : bool) (s : text)
  : option (text * groups * text) :=
  match match_here re adv s with
  | Some (g, rest) => Some ([], g, rest)
  | None =>
      match s with
      | [] => None
      | c :: s' =>
          match search re false s' with
          | Some (pre, g, rest) => Some (c :: pre, g, rest)
          | None => None
          end
      end
  end.

(** Replacement templates: literal characters and group references. *)
Inductive titem :=
| TLit (c : char)
| TGroup (i : nat).

Definition template := list titem.

(** A reference to a group that took no part in the match expands to the
    empty text. *)
Definition expand_item (g : groups) (t : titem) : text :=
  match t with
  | TLit c => [c]
  | TGroup i => match group g i with Some w => w | None => [] end
  end.

Definition expand (t : template) (g : groups) : text :=
  flat_map (expand_item g) t.

(** The loop of [re.sub]: search from the current position, copy the
    skipped text, append the expanded template, resume after the match.
    [None] only when the fuel runs out. *)
Fixpoint sub_loop (fuel : nat) (re : regex) (t : template) (adv : bool)
    (s : text) : option text :=
  match fuel with
  | 0 => None
  | S f =>
      match search re adv s with
      | None => Some s
      | Some (pre, g, rest) =>
          let empty := length rest =? length s - length pre in
          match sub_loop f re t empty rest with
          | Some out => Some (pre ++ expand t g ++ out)
          | None => None
          end
      end
  end.

(** The group numbers a pattern defines. *)
Fixpoint group_ids (r : regex) : list nat :=
  match r with
  | Lit _ => []
  | Rep _ _ _ => []
  | Cat r1 r2 => group_ids r1 ++ group_ids r2
  | Group i r => i :: group_ids r
  end.

(** A template may refer to the groups of the pattern only: [re.sub]
    refuses a reference to any other group with [re.error], before it
    searches. *)
Definition template_ok (re : regex) (t : template) : bool :=
  forallb (fun x =>
             match x with
             | TLit _ => true
             | TGroup i => existsb (Nat.eqb i) (group_ids re)
             end) t.

(** [re.sub]; [None] stands for [re.error]. *)
Definition re_sub (re : regex) (t : template) (s : text) : option text :=
  if template_ok re t then sub_loop (2 * length s + 2) re t false s
  else None.

End Re.

Import Re.

(* ================================================================= *)
(** ** The program's pattern and replacement *)

Definition digit : cset := Range 48%N 57%N.

(** [-?[0-9]+\.[0-9]+] *)
Definition number : regex :=
  Cat (Rep 0 (Some 1) (One minus))
 (Cat (Rep 1 None digit)
 (Cat (Lit dot)
      (Rep 1 None digit))).

(** [(-?[0-9]+\.[0-9]+),\n *(-?[0-9]+\.[0-9]+)] *)
Definition pattern : regex :=
  Cat (Group 1 number)
 (Cat (Lit comma)
 (Cat (Lit NL)
 (Cat (Rep 0 None (One space))
      (Group 2 number)))).

(** [r"\2,\n\1"] *)
Definition repl : template := [TGroup 2; TLit comma; TLit NL; TGroup 1].

(** [text = re.sub(pattern, r"\2,\n\1", text)] *)
Definition swap (t : text) : option text := re_sub pattern repl t.

(* ================================================================= *)
(** ** The file, opened in text mode *)

Module IO.

Definition bytes := list Byte.byte.

(** What the platform fixes for a file opened as text: the codec (either
    direction may fail) and the line separator. *)
Record platform := Platform {
  decode : bytes -> option text;
  encode : text -> option bytes;
  linesep : text
}.

(** Reading translates ["\r\n"] and a lone ["\r"] to ["\n"]. *)
Fixpoint nl_in (t : text) : text :=
  match t with
  | [] => []
  | c :: t' =>
      if N.eqb c CR then
        NL :: match t' with
              | d :: t'' => if N.eqb d NL then nl_in t'' else nl_in t'
              | [] => []
              end
      else c :: nl_in t'
  end.

(** Writing translates every ["\n"] to the line separator. *)
Definition nl_out (sep : text) (t : text) : text :=
  flat_map (fun c => if N.eqb c NL then sep else [c]) t.

(** An open handle: the file's bytes and the position. *)
Record handle := Handle {
  data : bytes;
  pos : nat
}.

Definition filesystem := string -> option bytes.

Definition store (name : string) (b : bytes) (fs : filesystem) : filesystem :=
  fun n => if String.eqb n name then Some b else fs n.

(** [open(name, "r+")]: the file must exist. *)
Definition open_rw (fs : filesystem) (name : string) : option handle :=
  match fs name with
  | Some b => Some (Handle b 0)
  | None => None
  end.

(** [read()]: everything from the position to the end, decoded. *)
Definition read (P : platform) (h : handle) : option (text * handle) :=
  match decode P (skipn (pos h) (data h)) with
  | Some t => Some (nl_in t, Handle (data h) (length (data h)))
  | None => None
  end.

(** [seek(n)] *)
Definition seek (n : nat) (h : handle) : handle := Handle (data h) n.

(** A position past the end is reached over zero bytes. *)
Definition pad_to (n : nat) (d : bytes) : bytes :=
  d ++ repeat Byte.x00 (n - length d).

(** [write(t)]: the encoded text overwrites the bytes at the position and
    extends the file where it is longer. *)
Definition write (P : platform) (t : text) (h : handle) : option handle :=
  match encode P (nl_out (linesep P) t) with
  | Some b =>
      Some (Handle (firstn (pos h) (pad_to (pos h) (data h)) ++ b
                    ++ skipn (pos h + length b) (data h))
                   (pos h + length b))
  | None => None
  end.

(** [truncate()]: the file ends at the position. *)
Definition truncate (h : handle) : handle :=
  Handle (firstn (pos h) (pad_to (pos h) (data h))) (pos h).

(** Leaving the [with] block closes the handle. *)
Definition close (name : string) (h : handle) (fs : filesystem) : filesystem :=
  store name (data h) fs.

End IO.

Import IO.

Notation "x <- e ;; k" :=
  (match e with Some x => k | None => None end)
  (at level 61, e at next level, right associativity).
Notation "' p <- e ;; k" :=
  (match e with Some p => k | None => None end)
  (at level 61, p pattern, e at next level, right associativity).

(** The script: read the file, substitute, write the result back through
    the same handle.  [None] stands for an exception. *)
Definition reverse_file (P : platform) (name : string) (fs : filesystem)
  : option filesystem :=
  sample <- open_rw fs name ;;
  '(text, sample) <- read P sample ;;
  text <- swap text ;;
  let sample := seek 0 sample in
  sample <- write P text sample ;;
  let sample := truncate sample in
  Some (close name sample fs).

(** [demos/geojson_devutil.py] *)
Definition demo_script (P : platform) : filesystem -> option filesystem :=
  reverse_file P "sample_map.js".

(** [geojson_devutil.py], whose prints leave the file alone; the second
    one prints [diagnostic_print]. *)
Definition diagnostic_script (P : platform) : filesystem -> option filesystem :=
  reverse_file P "sample_map3.js".

Definition diagnostic_print : option (groups * text) :=
  re_match pattern (str "oijf43.435093," ++ [NL] ++ str "-9043.90345jkkh").

(** A platform to run examples on: Latin-1 with ["\n"] as line separator
    (on ASCII data every ASCII-compatible codec agrees with it). *)
Definition latin1_decode (b : bytes) : option text := Some (map Byte.to_N b).

Fixpoint latin1_encode (t : text) : option bytes :=
  match t with
  | [] => Some []
  | c :: t' =>
      x <- Byte.of_N c ;;
      r <- latin1_encode t' ;;
      Some (x :: r)
  end.

Definition posix_latin1 : platform := Platform latin1_decode latin1_encode [NL].

Definition raw (s : string) : bytes := map byte_of_ascii (list_ascii_of_string s).
Arguments raw s%_string.

Definition no_files : filesystem := fun _ => None.

(* ================================================================= *)
(** ** The specification's vocabulary *)

(** A digit, [0] to [9]. *)
Definition is_digit (c : char) : bool := in_cset digit c.

(** One or more digits. *)
Definition digits (w : text) : Prop :=
  w <> [] /\ Forall (fun c => is_digit c = true) w.

(** A decimal number: an optional leading minus sign, one or more digits,
    a decimal point, one or more digits. *)
Definition decimal (w : text) : Prop :=
  exists sg ip fp,
    w = sg ++ ip ++ dot :: fp /\ (sg = [] \/ sg = [minus]) /\
    digits ip /\ digits fp.

(** Zero or more space characters. *)
Definition spaces (w : text) : Prop := Forall (fun c => c = space) w.

(** Number A, comma, newline, optional spaces, number B. *)
Definition pair (A sp B : text) : text := A ++ comma :: NL :: sp ++ B.

(** The text [m] is an occurrence of the pattern. *)
Definition is_pair (m : text) : Prop :=
  exists A sp B, m = pair A sp B /\ decimal A /\ spaces sp /\ decimal B.

(** The replacement: number B, comma, newline, number A. *)
Definition swapped (A B : text) : text := B ++ comma :: NL :: A.

(** The text does not go on with a digit. *)
Definition no_digit_head (s : text) : Prop :=
  match s with
  | c :: _ => is_digit c = false
  | [] => True
  end.

(** The transformation as the specification words it: every
    non-overlapping match of the pattern, found left to right, is replaced
    by number B, comma, newline, number A; scanning resumes immediately
    after each match.  The match taken at a position is the one the greedy
    quantifiers select, the longest there. *)
Inductive reversed : text -> text -> Prop :=
| reversed_none s :
    (forall pre m r, s = pre ++ m ++ r -> ~ is_pair m) ->
    reversed s s
| reversed_pair pre A sp B post out :
    decimal A -> spaces sp -> decimal B ->
    (forall pre1 m r,
        pre ++ pair A sp B ++ post = pre1 ++ m ++ r -> is_pair m ->
        length pre <= length pre1) ->
    (forall m r,
        pair A sp B ++ post = m ++ r -> is_pair m ->
        length m <= length (pair A sp B)) ->
    reversed post out ->
    reversed (pre ++ pair A sp B ++ post) (pre ++ swapped A B ++ out).

(** No occurrence of the pattern that starts inside [u] reaches into [w]. *)
Definition clean_cut (u w : text) : Prop :=
  forall u1 u2 m r,
    u = u1 ++ u2 -> u2 <> [] -> u2 ++ w = m ++ r -> is_pair m ->
    length m <= length u2.

(** The characters the pattern can match. *)
Definition pattern_char (c : char) : bool :=
  is_digit c || N.eqb c minus || N.eqb c dot || N.eqb c comma
  || N.eqb c NL || N.eqb c space.

(** One step of the scan: the text skipped in front of a match, and the
    match itself (number A, the spaces, number B). *)
Record segment := Segment {
  seg_pre : text;
  seg_A : text;
  seg_sp : text;
  seg_B : text
}.

(** The segment as the input has it. *)
Definition seg_in (g : segment) : text :=
  seg_pre g ++ pair (seg_A g) (seg_sp g) (seg_B g).

(** The segment as the output has it: the skipped text as it was, the
    match replaced. *)
Definition seg_out (g : segment) : text :=
  seg_pre g ++ swapped (seg_A g) (seg_B g).

(** The segment's match is an occurrence of the pattern. *)
Definition seg_ok (g : segment) : Prop :=
  decimal (seg_A g) /\ spaces (seg_sp g) /\ decimal (seg_B g).

(** The spans the scan matches: the search of [re.sub], started at [s]
    and resumed behind each match, finds the matches of [segs] one after
    the other, each behind the text it skips, and then nothing more in
    [tail]. *)
Inductive scanned : text -> list segment -> text -> Prop :=
| scanned_done s :
    search pattern false s = None -> scanned s [] s
| scanned_match s pre A sp B rest segs tail :
    search pattern false s = Some (pre, [(2, B); (1, A)], rest) ->
    s = pre ++ pair A sp B ++ rest ->
    scanned rest segs tail ->
    scanned s (Segment pre A sp B :: segs) tail.

(** The number starts with a minus sign. *)
Definition negative (w : text) : bool :=
  match w with
  | c :: _ => N.eqb c minus
  | [] => false
  end.

(** The last character of [s], or [prev] in front of an empty [s]. *)
Fixpoint last_char (prev : option char) (s : text) : option char :=
  match s with
  | [] => prev
  | c :: s' => last_char (Some c) s'
  end.

(** A character that can run into a number that follows it: a digit, a
    minus sign or a decimal point. *)
Definition joins (c : option char) : bool :=
  match c with
  | Some c => is_digit c || N.eqb c minus || N.eqb c dot
  | None => false
  end.

(** The texts on which the second pass undoes the first: in every pair
    the scan matches there are no spaces before the second number, and a
    pair whose first number is negative and whose second is not is not
    directly preceded by a digit, a minus sign or a decimal point.
    [prev] is the character in front of the scan position. *)
Inductive settled : option char -> text -> Prop :=
| settled_none prev s :
    search pattern false s = None -> settled prev s
| settled_pair prev s pre A B rest :
    search pattern false s = Some (pre, [(2, B); (1, A)], rest) ->
    s = pre ++ pair A [] B ++ rest ->
    (negative A = true -> negative B = false ->
     joins (last_char prev pre) = false) ->
    settled (last_char None B) rest ->
    settled prev s.

(* ================================================================= *)
(** ** Functions that describe the matcher on the program's pattern *)

(** The input left after the greedy reading of [-?[0-9]+\.], if any. *)
Definition number_head (s : text) : option text :=
  let s1 := skipn (count (One minus) (Some 1) s) s in
  let n1 := run_length digit s1 in
  if 1 <=? n1 then
    match skipn n1 s1 with
    | c :: s3 => if N.eqb c dot then Some s3 else None
    | [] => None
    end
  else None.

(** The input left after the greedy reading of a whole number. *)
Definition after_number (s : text) : option text :=
  match number_head s with
  | Some s3 =>
      let n2 := run_length digit s3 in
      if 1 <=? n2 then Some (skipn n2 s3) else None
  | None => None
  end.

(** The greedy reading of the whole pattern at the start of [s]: the two
    numbers and the input left. *)
Definition pair_at (s : text) : option (text * text * text) :=
  match after_number s with
  | Some (c1 :: c2 :: s5) =>
      if N.eqb c1 comma && N.eqb c2 NL then
        let s6 := skipn (run_length (One space) s5) s5 in
        match after_number s6 with
        | Some rest => Some (consumed s (c1 :: c2 :: s5), consumed s6 rest, rest)
        | None => None
        end
      else None
  | _ => None
  end.

(** The leftmost position at which the pattern matches: the text
    skipped, the two numbers and the text after the match. *)
Fixpoint find_pair (s : text) : option (text * text * text * text) :=
  match pair_at s with
  | Some (A, B, rest) => Some ([], A, B, rest)
  | None =>
      match s with
      | [] => None
      | c :: s' =>
          match find_pair s' with
          | Some (pre, A, B, rest) => Some (c :: pre, A, B, rest)
          | None => None
          end
      end
  end.

(** [w] is a prefix of [s]; [w] occurs somewhere in [s]. *)
Fixpoint starts_with (w s : text) : bool :=
  match w, s with
  | [], _ => true
  | c :: w', d :: s' => N.eqb c d && starts_with w' s'
  | _ :: _, [] => false
  end.

Fixpoint occurs_in (w s : text) : bool :=
  starts_with w s ||
  match s with
  | [] => false
  | _ :: s' => occurs_in w s'
  end.

(** Where a left-to-right reading of an occurrence stands: in the sign,
    the integer digits, the point or the fraction digits of the first or
    the second number, after the comma, or in the gap after the newline.
    [Frac2] is reached once an occurrence has been read. *)
Inductive state :=
| Start | Sign1 | Int1 | Dot1 | Frac1 | Comma | Gap | Sign2 | Int2 | Dot2 | Frac2.

(** Reading one character; [None] when no occurrence can go on with it. *)
Definition step (q : state) (c : char) : option state :=
  match q with
  | Start =>
      if N.eqb c minus then Some Sign1
      else if is_digit c then Some Int1 else None
  | Sign1 => if is_digit c then Some Int1 else None
  | Int1 =>
      if is_digit c then Some Int1
      else if N.eqb c dot then Some Dot1 else None
  | Dot1 => if is_digit c then Some Frac1 else None
  | Frac1 =>
      if is_digit c then Some Frac1
      else if N.eqb c comma then Some Comma else None
  | Comma => if N.eqb c NL then Some Gap else None
  | Gap =>
      if N.eqb c space then Some Gap
      else if N.eqb c minus then Some Sign2
      else if is_digit c then Some Int2 else None
  | Sign2 => if is_digit c then Some Int2 else None
  | Int2 =>
      if is_digit c then Some Int2
      else if N.eqb c dot then Some Dot2 else None
  | Dot2 => if is_digit c then Some Frac2 else None
  | Frac2 => Some Frac2
  end.

(** Reading a text from state [q]. *)
Fixpoint run (q : state) (s : text) : option state :=
  match s with
  | [] => Some q
  | c :: s' =>
      match step q c with
      | Some q' => run q' s'
      | None => None
      end
  end.

(** A decimal number without sign. *)
Definition unsigned (w : text) : Prop :=
  exists ip fp, w = ip ++ dot :: fp /\ digits ip /\ digits fp.

(** Zero or more digits. *)
Definition all_digits (ds : text) : Prop := Forall (fun c => is_digit c = true) ds.

(** The text goes on with spaces and a decimal number. *)
Definition second_number (s : text) : Prop :=
  exists sp w r, s = sp ++ w ++ r /\ spaces sp /\ decimal w.

(** What is still to be read from each state for an occurrence to be
    complete. *)
Definition reaches (q : state) (s : text) : Prop :=
  match q with
  | Start => exists m r, s = m ++ r /\ is_pair m
  | Sign1 =>
      exists ip fp t, s = ip ++ dot :: fp ++ comma :: NL :: t /\
                      digits ip /\ digits fp /\ second_number t
  | Int1 =>
      exists ip fp t, s = ip ++ dot :: fp ++ comma :: NL :: t /\
                      all_digits ip /\ digits fp /\ second_number t
  | Dot1 =>
      exists fp t, s = fp ++ comma :: NL :: t /\ digits fp /\ second_number t
  | Frac1 =>
      exists fp t, s = fp ++ comma :: NL :: t /\ all_digits fp /\ second_number t
  | Comma => exists t, s = NL :: t /\ second_number t
  | Gap => second_number s
  | Sign2 => exists ds d r, s = ds ++ dot :: d :: r /\ digits ds /\ is_digit d = true
  | Int2 => exists ds d r, s = ds ++ dot :: d :: r /\ all_digits ds /\ is_digit d = true
  | Dot2 => exists d r, s = d :: r /\ is_digit d = true
  | Frac2 => True
  end.

(** The states from which number [A], a comma, a newline and a second
    number complete an occurrence. *)
Definition completes (q : state) (A : text) : bool :=
  match q with
  | Start | Gap | Frac2 => true
  | Sign1 | Int1 | Sign2 | Int2 | Dot2 => negb (negative A)
  | Dot1 | Frac1 | Comma => false
  end.

(** The states in which no occurrence can go on with number [B]. *)
Definition stops (q : state) (B : text) : bool :=
  match q with
  | Dot1 | Frac1 | Comma => true
  | Sign1 | Int1 | Sign2 | Int2 | Dot2 => negative B
  | Start | Gap | Frac2 => false
  end.

(* ================================================================= *)
(** ** Documents and the diagnostic output *)

(** No occurrence of the pattern starts inside [u] when [W] follows. *)
Definition no_start_in (u W : text) : Prop :=
  forall u1 u2 m r,
    u = u1 ++ u2 -> u2 <> [] -> u2 ++ W = m ++ r -> ~ is_pair m.

(** The same, decided with the greedy reading at every position of [u]. *)
Fixpoint no_start_inb (u W : text) : bool :=
  match u with
  | [] => true
  | _ :: u' =>
      match pair_at (u ++ W) with
      | None => no_start_inb u' W
      | Some _ => false
      end
  end.

(** A document of coordinate pairs, each behind a filler text in which no
    match starts and in front of a text that does not go on with a digit;
    no match in the text after the last pair. *)
Inductive separated : list segment -> text -> Prop :=
| separated_nil tail :
    (forall pre m r, tail = pre ++ m ++ r -> ~ is_pair m) ->
    separated [] tail
| separated_cons g segs tail :
    seg_ok g ->
    no_start_in (seg_pre g)
      (pair (seg_A g) (seg_sp g) (seg_B g) ++ flat_map seg_in segs ++ tail) ->
    no_digit_head (flat_map seg_in segs ++ tail) ->
    separated segs tail ->
    separated (g :: segs) tail.

(** The bytes the script writes for a file that holds [old]. *)
Definition rewritten (P : platform) (old : bytes) : option bytes :=
  t <- decode P old ;;
  out <- swap (nl_in t) ;;
  encode P (nl_out (linesep P) out).

(** [text[-100:]]: the last hundred characters, or the whole of a shorter
    text. *)
Definition last100 (t : text) : text := skipn (length t - 100) t.

(** What the diagnostic script prints: the end of the text read, the
    result of [re.match] on the sample string, the end of the text after
    the substitution. *)
Definition diagnostic_output (P : platform) (fs : filesystem)
  : option (text * option (groups * text) * text) :=
  sample <- open_rw fs "sample_map3.js" ;;
  '(text, _) <- read P sample ;;
  text' <- swap text ;;
  Some (last100 text, diagnostic_print, last100 text').

(* ================================================================= *)
(** ** Facts about the engine *)

Section EngineFacts.

Context {R : Type}.
Implicit Types (k : text -> groups -> option R) (s : text) (g : groups).

Lemma run_length_le p s : run_length p s <= length s.
Proof.
  induction s as [|c s IH]; simpl; [lia|].
  destruct (in_cset p c); simpl; lia.
Qed.

Lemma run_length_app p (l r : text) :
  Forall (fun c => in_cset p c = true) l ->
  run_length p (l ++ r) = length l + run_length p r.
Proof.
  induction 1 as [|c l Hc _ IH]; simpl; [reflexivity|].
  now rewrite Hc, IH.
Qed.

Lemma run_length_firstn p s :
  Forall (fun c => in_cset p c = true) (firstn (run_length p s) s).
Proof.
  induction s as [|c s IH]; simpl; [constructor|].
  destruct (in_cset p c) eqn:E; simpl; [constructor; assumption|constructor].
Qed.

Lemma run_length_skipn p s : run_length p (skipn (run_length p s) s) = 0.
Proof.
  induction s as [|c s IH]; simpl; [reflexivity|].
  destruct (in_cset p c) eqn:E; simpl; [assumption|now rewrite E].
Qed.

Lemma skipn_run_head p s j :
  j < run_length p s ->
  exists c s', skipn j s = c :: s' /\ in_cset p c = true.
Proof.
  revert j; induction s as [|c s IH]; simpl; intros j Hj; [lia|].
  destruct (in_cset p c) eqn:E; [|lia].
  destruct j as [|j]; simpl; [eauto|].
  apply IH; lia.
Qed.

Lemma count_le_run p hi s : count p hi s <= run_length p s.
Proof. destruct hi; simpl; lia. Qed.

Lemma retry_none (f : nat -> option R) lo n :
  lo <= n -> (forall j, lo <= j <= n -> f j = None) -> retry f lo n = None.
Proof.
  induction n as [|n IH]; intros L H; simpl.
  - now rewrite H by lia.
  - rewrite H by lia.
    destruct (lo <=? n) eqn:E; [|reflexivity].
    apply Nat.leb_le in E. apply IH; [assumption|].
    intros j Hj; apply H; lia.
Qed.

Lemma retry_first (f : nat -> option R) lo n x :
  f n = Some x -> retry f lo n = Some x.
Proof. intros H; destruct n; simpl; now rewrite H. Qed.

Lemma retry_last (f : nat -> option R) lo n :
  lo <= n -> (forall j, lo <= j < n -> f j = None) -> retry f lo n = f n.
Proof.
  intros L H. destruct (f n) as [x|] eqn:E.
  - now apply retry_first.
  - apply retry_none; [assumption|].
    intros j Hj. destruct (Nat.eq_dec j n) as [->|N]; [assumption|].
    apply H; lia.
Qed.

(** A repeat whose continuation refuses every input that starts with a
    character of the repeated set never backtracks: it takes the longest
    run. *)
Lemma bt_rep_det lo hi p s g k :
  (forall c s', in_cset p c = true -> k (c :: s') g = None) ->
  bt (Rep lo hi p) s g k =
    if lo <=? count p hi s then k (skipn (count p hi s) s) g else None.
Proof.
  intros Hk; simpl.
  destruct (lo <=? count p hi s) eqn:E; [|reflexivity].
  apply Nat.leb_le in E.
  apply (retry_last (fun j => k (skipn j s) g)); [assumption|].
  intros j Hj.
  destruct (skipn_run_head p s j) as (c & s' & -> & Hc).
  - pose proof (count_le_run p hi s); lia.
  - now apply Hk.
Qed.

(** The first continuation call is with the longest run. *)
Lemma bt_rep_first lo hi p s g k x :
  lo <= count p hi s ->
  k (skipn (count p hi s) s) g = Some x ->
  bt (Rep lo hi p) s g k = Some x.
Proof.
  intros L H; simpl.
  apply Nat.leb_le in L; rewrite L.
  now apply (retry_first (fun j => k (skipn j s) g)).
Qed.

Lemma bt_rep_short lo hi p s g k :
  count p hi s < lo -> bt (Rep lo hi p) s g k = None.
Proof.
  intros L; simpl.
  destruct (lo <=? count p hi s) eqn:E; [|reflexivity].
  apply Nat.leb_le in E; lia.
Qed.

End EngineFacts.

(* ================================================================= *)
(** ** What the matcher does on the program's pattern *)

Lemma is_digit_iff c : is_digit c = true <-> (48 <= c <= 57)%N.
Proof.
  unfold is_digit; simpl. rewrite andb_true_iff, !N.leb_le. tauto.
Qed.

Section PatternFacts.

Context {R : Type}.
Implicit Types (k : text -> groups -> option R) (s : text) (g : groups).

Lemma bt_cat r1 r2 s g k :
  bt (Cat r1 r2) s g k = bt r1 s g (fun s' g' => bt r2 s' g' k).
Proof. reflexivity. Qed.

Lemma bt_group i r s g k :
  bt (Group i r) s g k = bt r s g (fun s' g' => k s' ((i, consumed s s') :: g')).
Proof. reflexivity. Qed.

Lemma bt_lit c s g k :
  bt (Lit c) s g k =
    match s with
    | x :: s' => if N.eqb x c then k s' g else None
    | [] => None
    end.
Proof. reflexivity. Qed.

Lemma bt_number_head s g k :
  bt number s g k =
    match number_head s with
    | Some s3 => bt (Rep 1 None digit) s3 g k
    | None => None
    end.
Proof.
  unfold number, number_head.
  rewrite bt_cat, bt_rep_det.
  2:{ intros c s' Hc. apply N.eqb_eq in Hc; subst c.
      rewrite bt_cat. apply bt_rep_short. simpl. lia. }
  change (0 <=? count (One minus) (Some 1) s) with true; cbv iota.
  set (s1 := skipn (count (One minus) (Some 1) s) s).
  rewrite bt_cat, bt_rep_det.
  2:{ intros c s' Hc. apply is_digit_iff in Hc.
      rewrite bt_cat, bt_lit.
      destruct (N.eqb_spec c dot) as [->|_]; [unfold dot in Hc; lia|reflexivity]. }
  change (count digit None s1) with (run_length digit s1).
  destruct (1 <=? run_length digit s1); [|reflexivity].
  rewrite bt_cat, bt_lit.
  destruct (skipn (run_length digit s1) s1) as [|c s3]; [reflexivity|].
  destruct (N.eqb c dot); reflexivity.
Qed.

(** In front of a continuation that refuses digits, the number is read
    deterministically. *)
Lemma bt_number_det s g k :
  (forall c s', is_digit c = true -> k (c :: s') g = None) ->
  bt number s g k =
    match after_number s with
    | Some r => k r g
    | None => None
    end.
Proof.
  intros Hk. rewrite bt_number_head. unfold after_number.
  destruct (number_head s) as [s3|]; [|reflexivity].
  rewrite bt_rep_det by exact Hk.
  change (count digit None s3) with (run_length digit s3).
  destruct (1 <=? run_length digit s3); reflexivity.
Qed.

Lemma bt_number_some s g k r x :
  after_number s = Some r -> k r g = Some x -> bt number s g k = Some x.
Proof.
  intros H Hk. rewrite bt_number_head. unfold after_number in H.
  destruct (number_head s) as [s3|]; [|discriminate].
  destruct (1 <=? run_length digit s3) eqn:E; [|discriminate].
  injection H as <-.
  apply bt_rep_first; [now apply Nat.leb_le|exact Hk].
Qed.

Lemma bt_number_none s g k :
  after_number s = None -> bt number s g k = None.
Proof.
  intros H. rewrite bt_number_head. unfold after_number in H.
  destruct (number_head s) as [s3|]; [|reflexivity].
  destruct (1 <=? run_length digit s3) eqn:E; [discriminate|].
  apply bt_rep_short. apply Nat.leb_gt in E. exact E.
Qed.

Lemma after_number_space s : after_number (space :: s) = None.
Proof. reflexivity. Qed.

Lemma bt_pattern_head s k :
  bt pattern s [] k =
    match after_number s with
    | Some (c1 :: c2 :: s5) =>
        if N.eqb c1 comma && N.eqb c2 NL then
          let s6 := skipn (run_length (One space) s5) s5 in
          bt number s6 [(1, consumed s (c1 :: c2 :: s5))]
            (fun s' g' => k s' ((2, consumed s6 s') :: g'))
        else None
    | _ => None
    end.
Proof.
  unfold pattern.
  rewrite bt_cat, bt_group, bt_number_det.
  2:{ intros c s' Hc. apply is_digit_iff in Hc.
      rewrite bt_cat, bt_lit.
      destruct (N.eqb_spec c comma) as [->|_]; [unfold comma in Hc; lia|reflexivity]. }
  destruct (after_number s) as [r|]; [|reflexivity].
  rewrite bt_cat, bt_lit.
  destruct r as [|c1 r]; [reflexivity|].
  destruct (N.eqb c1 comma); [|now destruct r].
  rewrite bt_cat, bt_lit.
  destruct r as [|c2 s5]; [reflexivity|].
  destruct (N.eqb c2 NL); [|reflexivity].
  rewrite bt_cat, bt_rep_det.
  2:{ intros c s' Hc. apply N.eqb_eq in Hc; subst c.
      rewrite bt_group. apply bt_number_none, after_number_space. }
  simpl andb. cbv iota.
  change (0 <=? count (One space) None s5) with true; cbv iota.
  change (count (One space) None s5) with (run_length (One space) s5).
  now rewrite bt_group.
Qed.

(** When the greedy reading succeeds and the continuation accepts it,
    that is the match the engine returns. *)
Lemma bt_pattern_some s k A B rest x :
  pair_at s = Some (A, B, rest) ->
  k rest [(2, B); (1, A)] = Some x ->
  bt pattern s [] k = Some x.
Proof.
  intros H Hk. rewrite bt_pattern_head. unfold pair_at in H.
  destruct (after_number s) as [[|c1 [|c2 s5]]|]; try discriminate.
  destruct (N.eqb c1 comma && N.eqb c2 NL); [|discriminate].
  cbv zeta in *.
  destruct (after_number (skipn (run_length (One space) s5) s5)) as [r|] eqn:E;
    [|discriminate].
  injection H as <- <- <-.
  eapply bt_number_some; [exact E|exact Hk].
Qed.

(** When the greedy reading fails, no backtracking finds a match. *)
Lemma bt_pattern_none s k :
  pair_at s = None -> bt pattern s [] k = None.
Proof.
  intros H. rewrite bt_pattern_head. unfold pair_at in H.
  destruct (after_number s) as [[|c1 [|c2 s5]]|]; try reflexivity.
  destruct (N.eqb c1 comma && N.eqb c2 NL); [|reflexivity].
  cbv zeta in *.
  destruct (after_number (skipn (run_length (One space) s5) s5)) as [r|] eqn:E;
    [discriminate|].
  now apply bt_number_none.
Qed.

End PatternFacts.

(* ================================================================= *)
(** ** The greedy reading against the vocabulary *)

Lemma consumed_app (w r : text) : consumed (w ++ r) r = w.
Proof.
  unfold consumed. rewrite length_app.
  replace (length w + length r - length r) with (length w) by lia.
  rewrite firstn_app, Nat.sub_diag, firstn_all. simpl. apply app_nil_r.
Qed.

Lemma skipn_length_app (w r : text) : skipn (length w) (w ++ r) = r.
Proof.
  rewrite skipn_app, Nat.sub_diag, skipn_all. reflexivity.
Qed.

Lemma no_digit_head_run r : no_digit_head r <-> run_length digit r = 0.
Proof.
  destruct r as [|c r]; [simpl; tauto|].
  unfold no_digit_head, is_digit. cbn [run_length].
  destruct (in_cset digit c); split; intros H; congruence || discriminate || reflexivity.
Qed.

Lemma run_length_digits (w r : text) :
  Forall (fun c => is_digit c = true) w -> no_digit_head r ->
  run_length digit (w ++ r) = length w.
Proof.
  intros Hw Hr. rewrite run_length_app by exact Hw.
  apply no_digit_head_run in Hr. lia.
Qed.

Lemma digits_length w : digits w -> 1 <= length w.
Proof. intros [H _]. destruct w; [congruence|simpl; lia]. Qed.

Lemma no_digit_head_dot r : no_digit_head (dot :: r).
Proof. reflexivity. Qed.

Lemma number_head_spec s s3 :
  number_head s = Some s3 ->
  exists sg ip,
    s = sg ++ ip ++ dot :: s3 /\ (sg = [] \/ sg = [minus]) /\ digits ip.
Proof.
  unfold number_head.
  set (n0 := count (One minus) (Some 1) s).
  set (s1 := skipn n0 s).
  destruct (1 <=? run_length digit s1) eqn:E; [|discriminate].
  apply Nat.leb_le in E.
  destruct (skipn (run_length digit s1) s1) as [|c r] eqn:Es; [discriminate|].
  destruct (N.eqb_spec c dot) as [->|]; [|discriminate].
  intros [= <-].
  exists (firstn n0 s), (firstn (run_length digit s1) s1).
  split; [|split].
  - rewrite <- Es, firstn_skipn. subst s1. now rewrite firstn_skipn.
  - subst n0. destruct s as [|c s']; simpl; [now left|].
    destruct (N.eqb_spec c minus) as [->|]; simpl; [now right|now left].
  - split.
    + intros H. apply (f_equal (@length _)) in H.
      rewrite length_firstn in H. pose proof (run_length_le digit s1).
      simpl in H. lia.
    + apply run_length_firstn.
Qed.

Lemma after_number_spec s r :
  after_number s = Some r ->
  exists w, s = w ++ r /\ decimal w /\ no_digit_head r.
Proof.
  unfold after_number.
  destruct (number_head s) as [s3|] eqn:H; [|discriminate].
  destruct (1 <=? run_length digit s3) eqn:E; [|discriminate].
  apply Nat.leb_le in E. intros [= <-].
  destruct (number_head_spec _ _ H) as (sg & ip & -> & Hsg & Hip).
  exists (sg ++ ip ++ dot :: firstn (run_length digit s3) s3).
  split; [|split].
  - rewrite <- !app_assoc. simpl. now rewrite firstn_skipn.
  - exists sg, ip, (firstn (run_length digit s3) s3).
    split; [reflexivity|]. split; [assumption|]. split; [assumption|].
    split.
    + intros H0. apply (f_equal (@length _)) in H0.
      rewrite length_firstn in H0. pose proof (run_length_le digit s3).
      simpl in H0. lia.
    + apply run_length_firstn.
  - apply no_digit_head_run, run_length_skipn.
Qed.

Lemma number_head_complete sg ip s3 :
  (sg = [] \/ sg = [minus]) -> digits ip ->
  number_head (sg ++ ip ++ dot :: s3) = Some s3.
Proof.
  intros Hsg [Hne Hip]. unfold number_head.
  assert (Hc : skipn (count (One minus) (Some 1) (sg ++ ip ++ dot :: s3))
                 (sg ++ ip ++ dot :: s3) = ip ++ dot :: s3).
  { destruct Hsg as [-> | ->].
    - destruct ip as [|c ip]; [congruence|].
      inversion Hip as [|? ? Hd _]; subst. apply is_digit_iff in Hd.
      simpl. destruct (N.eqb_spec c minus) as [->|]; [unfold minus in Hd; lia|].
      reflexivity.
    - simpl. destruct (run_length (One minus) (ip ++ dot :: s3)); reflexivity. }
  rewrite Hc.
  rewrite (run_length_digits ip (dot :: s3) Hip (no_digit_head_dot s3)).
  pose proof (digits_length ip (conj Hne Hip)) as L.
  apply Nat.leb_le in L. rewrite L.
  rewrite skipn_length_app. simpl. reflexivity.
Qed.

Lemma after_number_complete w r :
  decimal w -> no_digit_head r -> after_number (w ++ r) = Some r.
Proof.
  intros (sg & ip & fp & -> & Hsg & Hip & Hne & Hfp) Hr.
  unfold after_number.
  replace ((sg ++ ip ++ dot :: fp) ++ r) with (sg ++ ip ++ dot :: (fp ++ r))
    by (now rewrite <- !app_assoc).
  rewrite number_head_complete by assumption.
  cbv zeta. rewrite (run_length_digits fp r Hfp Hr).
  pose proof (digits_length fp (conj Hne Hfp)) as L.
  apply Nat.leb_le in L. rewrite L.
  now rewrite skipn_length_app.
Qed.

Lemma pair_app A sp B rest :
  pair A sp B ++ rest = A ++ comma :: NL :: sp ++ B ++ rest.
Proof. unfold pair. rewrite <- app_assoc. simpl. now rewrite <- app_assoc. Qed.

Lemma decimal_head w :
  decimal w -> exists c w', w = c :: w' /\ (c = minus \/ is_digit c = true).
Proof.
  intros (sg & ip & fp & -> & Hsg & (Hne & Hip) & _).
  destruct Hsg as [-> | ->]; simpl; [|eauto].
  destruct ip as [|c ip]; [congruence|].
  inversion Hip; subst. simpl. eauto.
Qed.

Lemma decimal_run_space w r : decimal w -> run_length (One space) (w ++ r) = 0.
Proof.
  intros H. destruct (decimal_head w H) as (c & w' & -> & Hc). simpl.
  destruct (N.eqb_spec c space) as [->|]; [|reflexivity].
  destruct Hc as [Hc|Hc]; [discriminate|].
  apply is_digit_iff in Hc. unfold space in Hc. lia.
Qed.

Lemma spaces_in_cset sp :
  spaces sp <-> Forall (fun c => in_cset (One space) c = true) sp.
Proof.
  unfold spaces. rewrite !Forall_forall. simpl.
  split; intros H c Hc; apply N.eqb_eq; auto.
Qed.

Lemma pair_at_spec s A B rest :
  pair_at s = Some (A, B, rest) ->
  exists sp,
    s = pair A sp B ++ rest /\ decimal A /\ spaces sp /\ decimal B /\
    no_digit_head rest.
Proof.
  unfold pair_at.
  destruct (after_number s) as [[|c1 [|c2 s5]]|] eqn:E1; try discriminate.
  destruct (N.eqb_spec c1 comma) as [->|]; [|discriminate].
  destruct (N.eqb_spec c2 NL) as [->|]; [|discriminate].
  simpl andb. cbv iota zeta.
  set (n := run_length (One space) s5).
  destruct (after_number (skipn n s5)) as [r|] eqn:E2; [|discriminate].
  intros [= <- <- <-].
  destruct (after_number_spec _ _ E1) as (wA & -> & HA & _).
  destruct (after_number_spec _ _ E2) as (wB & HB0 & HB & Hr).
  rewrite consumed_app. rewrite HB0, consumed_app.
  exists (firstn n s5). rewrite pair_app.
  split; [|split; [assumption|split; [|split; assumption]]].
  - rewrite <- HB0, firstn_skipn. reflexivity.
  - apply spaces_in_cset. apply run_length_firstn.
Qed.

Lemma pair_at_complete A sp B rest :
  decimal A -> spaces sp -> decimal B -> no_digit_head rest ->
  pair_at (pair A sp B ++ rest) = Some (A, B, rest).
Proof.
  intros HA Hsp HB Hr. unfold pair_at. rewrite pair_app.
  rewrite (after_number_complete A) by (assumption || reflexivity).
  simpl andb. cbv iota zeta.
  apply spaces_in_cset in Hsp.
  rewrite (run_length_app (One space) sp (B ++ rest) Hsp).
  rewrite decimal_run_space by assumption.
  rewrite Nat.add_0_r, skipn_length_app.
  rewrite (after_number_complete B) by assumption.
  now rewrite !consumed_app.
Qed.

(* ================================================================= *)
(** ** The search and the substitution loop on the program's pattern *)

Lemma pair_length A sp B : length (pair A sp B) = length A + 2 + length sp + length B.
Proof. unfold pair. rewrite length_app. simpl. rewrite length_app. lia. Qed.

Lemma pair_at_shorter s A B rest :
  pair_at s = Some (A, B, rest) -> length rest + 2 <= length s.
Proof.
  intros H. destruct (pair_at_spec _ _ _ _ H) as (sp & -> & _).
  rewrite length_app, pair_length. lia.
Qed.

(** A match of this pattern is never empty, so the must-advance flag is
    without effect. *)
Lemma match_here_pattern adv s :
  match_here pattern adv s =
    match pair_at s with
    | Some (A, B, rest) => Some ([(2, B); (1, A)], rest)
    | None => None
    end.
Proof.
  unfold match_here.
  destruct (pair_at s) as [[[A B] rest]|] eqn:E.
  - eapply bt_pattern_some; [exact E|].
    apply pair_at_shorter in E.
    destruct (Nat.eqb_spec (length rest) (length s)) as [L|_]; [lia|].
    now rewrite andb_false_r.
  - now apply bt_pattern_none.
Qed.

Lemma search_pattern adv s :
  search pattern adv s =
    match find_pair s with
    | Some (pre, A, B, rest) => Some (pre, [(2, B); (1, A)], rest)
    | None => None
    end.
Proof.
  revert adv; induction s as [|c s IH]; intros adv;
    cbn [search find_pair]; rewrite match_here_pattern.
  - destruct (pair_at []) as [[[A B] rest]|]; reflexivity.
  - destruct (pair_at (c :: s)) as [[[A B] rest]|]; [reflexivity|].
    rewrite IH. destruct (find_pair s) as [[[[pre A] B] rest]|]; reflexivity.
Qed.

Lemma find_pair_app s pre A B rest :
  find_pair s = Some (pre, A, B, rest) ->
  pair_at (skipn (length pre) s) = Some (A, B, rest) /\ firstn (length pre) s = pre.
Proof.
  revert pre; induction s as [|c s IH]; intros pre; cbn [find_pair].
  - destruct (pair_at []) as [[[A' B'] r']|] eqn:E; [|discriminate].
    intros [= <- <- <- <-]. now split.
  - destruct (pair_at (c :: s)) as [[[A' B'] r']|] eqn:E.
    + intros [= <- <- <- <-]. now split.
    + destruct (find_pair s) as [[[[pre' A'] B'] r']|]; [|discriminate].
      intros [= <- <- <- <-]. destruct (IH pre' eq_refl) as [H1 H2].
      simpl. split; [assumption|now f_equal].
Qed.

Lemma find_pair_shorter s pre A B rest :
  find_pair s = Some (pre, A, B, rest) ->
  length pre + length rest + 2 <= length s.
Proof.
  intros H. destruct (find_pair_app _ _ _ _ _ H) as [H1 H2].
  apply pair_at_shorter in H1. rewrite length_skipn in H1.
  apply (f_equal (@length _)) in H2. rewrite length_firstn in H2. lia.
Qed.

Lemma expand_repl A B : expand repl [(2, B); (1, A)] = swapped A B.
Proof. unfold swapped. simpl. now rewrite app_nil_r. Qed.

Lemma sub_loop_pattern f s :
  sub_loop (S f) pattern repl false s =
    match find_pair s with
    | None => Some s
    | Some (pre, A, B, rest) =>
        match sub_loop f pattern repl false rest with
        | Some out => Some (pre ++ swapped A B ++ out)
        | None => None
        end
    end.
Proof.
  cbn [sub_loop]. rewrite search_pattern.
  destruct (find_pair s) as [[[[pre A] B] rest]|] eqn:E; [|reflexivity].
  apply find_pair_shorter in E.
  destruct (Nat.eqb_spec (length rest) (length s - length pre)) as [L|_]; [lia|].
  now rewrite expand_repl.
Qed.

(** With more fuel than characters the loop does not depend on the fuel. *)
Lemma sub_loop_fuel f1 : forall f2 s,
  length s < f1 -> length s < f2 ->
  sub_loop f1 pattern repl false s = sub_loop f2 pattern repl false s.
Proof.
  induction f1 as [|f1 IH]; intros f2 s L1 L2; [lia|].
  destruct f2 as [|f2]; [lia|].
  rewrite !sub_loop_pattern.
  destruct (find_pair s) as [[[[pre A] B] rest]|] eqn:E; [|reflexivity].
  apply find_pair_shorter in E.
  rewrite (IH f2 rest) by lia. reflexivity.
Qed.

Lemma template_ok_repl : template_ok pattern repl = true.
Proof. reflexivity. Qed.

Lemma swap_none s : find_pair s = None -> swap s = Some s.
Proof.
  intros H. unfold swap, re_sub. rewrite template_ok_repl.
  replace (2 * length s + 2) with (S (2 * length s + 1)) by lia.
  now rewrite sub_loop_pattern, H.
Qed.

Lemma swap_step s pre A B rest :
  find_pair s = Some (pre, A, B, rest) ->
  swap s =
    match swap rest with
    | Some out => Some (pre ++ swapped A B ++ out)
    | None => None
    end.
Proof.
  intros H. unfold swap, re_sub. rewrite template_ok_repl.
  replace (2 * length s + 2) with (S (2 * length s + 1)) by lia.
  rewrite sub_loop_pattern, H.
  apply find_pair_shorter in H.
  rewrite (sub_loop_fuel (2 * length s + 1) (2 * length rest + 2) rest) by lia.
  reflexivity.
Qed.

(** The substitution always returns: the fuel never runs out. *)
Lemma swap_total s : exists out, swap s = Some out.
Proof.
  remember (length s) as n eqn:Hn. revert s Hn.
  induction n as [n IH] using lt_wf_ind; intros s ->.
  destruct (find_pair s) as [[[[pre A] B] rest]|] eqn:E.
  - rewrite (swap_step _ _ _ _ _ E).
    pose proof (find_pair_shorter _ _ _ _ _ E).
    destruct (IH (length rest) ltac:(lia) rest eq_refl) as [out ->]. eauto.
  - rewrite swap_none by assumption. eauto.
Qed.

(** Induction along the substitution loop. *)
Lemma swap_ind (P : text -> text -> Prop) :
  (forall s, find_pair s = None -> P s s) ->
  (forall s pre A B rest out,
      find_pair s = Some (pre, A, B, rest) ->
      swap rest = Some out -> P rest out ->
      P s (pre ++ swapped A B ++ out)) ->
  forall s out, swap s = Some out -> P s out.
Proof.
  intros Hn Hs s.
  remember (length s) as n eqn:Hl. revert s Hl.
  induction n as [n IH] using lt_wf_ind; intros s -> out H.
  destruct (find_pair s) as [[[[pre A] B] rest]|] eqn:E.
  - rewrite (swap_step _ _ _ _ _ E) in H.
    destruct (swap rest) as [out'|] eqn:Er; [|discriminate].
    injection H as <-.
    pose proof (find_pair_shorter _ _ _ _ _ E).
    eapply Hs; eauto. eapply IH; eauto. lia.
  - rewrite swap_none in H by assumption. injection H as <-. now apply Hn.
Qed.

(* ================================================================= *)
(** ** Occurrences of the pattern and the greedy reading *)

Lemma decimal_more_digits w d :
  decimal w -> Forall (fun c => is_digit c = true) d -> decimal (w ++ d).
Proof.
  intros (sg & ip & fp & -> & Hsg & Hip & Hne & Hfp) Hd.
  exists sg, ip, (fp ++ d). split; [|split; [assumption|split; [assumption|split]]].
  - rewrite <- !app_assoc. reflexivity.
  - destruct fp; [congruence|discriminate].
  - apply Forall_app; now split.
Qed.

(** Wherever an occurrence of the pattern starts, the greedy reading
    succeeds and reaches at least as far. *)
Lemma pair_at_longest m r :
  is_pair m ->
  exists A B rest,
    pair_at (m ++ r) = Some (A, B, rest) /\ length rest <= length r.
Proof.
  intros (A & sp & B & -> & HA & Hsp & HB).
  set (n := run_length digit r).
  exists A, (B ++ firstn n r), (skipn n r). split.
  - replace (pair A sp B ++ r) with (pair A sp (B ++ firstn n r) ++ skipn n r).
    + apply pair_at_complete; try assumption.
      * apply decimal_more_digits; [assumption|apply run_length_firstn].
      * apply no_digit_head_run, run_length_skipn.
    + rewrite !pair_app, <- app_assoc, firstn_skipn. reflexivity.
  - rewrite length_skipn. lia.
Qed.

Lemma pair_at_is_pair s A B rest :
  pair_at s = Some (A, B, rest) ->
  exists m, s = m ++ rest /\ is_pair m.
Proof.
  intros H. destruct (pair_at_spec _ _ _ _ H) as (sp & -> & HA & Hsp & HB & _).
  exists (pair A sp B). split; [reflexivity|]. exists A, sp, B. auto.
Qed.

Lemma pair_at_none_iff s :
  pair_at s = None <-> (forall m r, s = m ++ r -> ~ is_pair m).
Proof.
  split.
  - intros H m r -> Hm.
    destruct (pair_at_longest m r Hm) as (A & B & rest & E & _). congruence.
  - intros H. destruct (pair_at s) as [[[A B] rest]|] eqn:E; [|reflexivity].
    destruct (pair_at_is_pair _ _ _ _ E) as (m & Hs & Hm).
    exfalso. exact (H m rest Hs Hm).
Qed.

Lemma find_pair_leftmost s pre A B rest :
  find_pair s = Some (pre, A, B, rest) ->
  forall u v, s = u ++ v -> length u < length pre -> pair_at v = None.
Proof.
  revert pre; induction s as [|c s IH]; intros pre; cbn [find_pair].
  - destruct (pair_at []) as [[[A' B'] r']|]; [|discriminate].
    intros [= <- <- <- <-] u v _ L. simpl in L. lia.
  - destruct (pair_at (c :: s)) as [[[A' B'] r']|] eqn:E.
    + intros [= <- <- <- <-] u v _ L. simpl in L. lia.
    + destruct (find_pair s) as [[[[pre' A'] B'] r']|] eqn:F; [|discriminate].
      intros [= <- <- <- <-] u v Hs L.
      destruct u as [|c' u]; simpl in Hs.
      * now subst v.
      * injection Hs as <- ->. eapply IH; [reflexivity|reflexivity|].
        simpl in L. lia.
Qed.

Lemma find_pair_none_all s :
  find_pair s = None -> forall u v, s = u ++ v -> pair_at v = None.
Proof.
  induction s as [|c s IH]; cbn [find_pair].
  - destruct (pair_at []) as [[[A' B'] r']|] eqn:E; [discriminate|].
    intros _ u v Hs. symmetry in Hs. apply app_eq_nil in Hs as [_ ->]. exact E.
  - destruct (pair_at (c :: s)) as [[[A' B'] r']|] eqn:E; [discriminate|].
    destruct (find_pair s) as [[[[pre' A'] B'] r']|] eqn:F; [discriminate|].
    intros _ u v Hs. destruct u as [|c' u]; simpl in Hs.
    + now subst v.
    + injection Hs as <- ->. now apply (IH eq_refl u v).
Qed.

Lemma find_pair_intro pre : forall v A B rest,
  pair_at v = Some (A, B, rest) ->
  (forall u w, pre ++ v = u ++ w -> length u < length pre -> pair_at w = None) ->
  find_pair (pre ++ v) = Some (pre, A, B, rest).
Proof.
  induction pre as [|c pre IH]; intros v A B rest Hv Hl.
  - cbn [app]. destruct v; cbn [find_pair]; now rewrite Hv.
  - simpl app. cbn [find_pair].
    rewrite (Hl [] (c :: pre ++ v) eq_refl) by (simpl; lia).
    rewrite (IH v A B rest Hv); [reflexivity|].
    intros u w Hs L. apply (Hl (c :: u) w); simpl; [now f_equal|lia].
Qed.

Lemma find_pair_none_intro s :
  (forall u v, s = u ++ v -> pair_at v = None) -> find_pair s = None.
Proof.
  induction s as [|c s IH]; intros H; cbn [find_pair].
  - now rewrite (H [] [] eq_refl).
  - rewrite (H [] (c :: s) eq_refl). rewrite IH; [reflexivity|].
    intros u v ->. now apply (H (c :: u) v).
Qed.

Lemma find_pair_split s pre A B rest :
  find_pair s = Some (pre, A, B, rest) ->
  exists v, s = pre ++ v /\ pair_at v = Some (A, B, rest).
Proof.
  intros H. destruct (find_pair_app _ _ _ _ _ H) as [H1 H2].
  exists (skipn (length pre) s). split; [|assumption].
  rewrite <- H2 at 1. now rewrite firstn_skipn.
Qed.

(* ================================================================= *)
(** ** The substitution against the specification's wording *)

Lemma find_pair_none_occurs s :
  find_pair s = None <-> (forall pre m r, s = pre ++ m ++ r -> ~ is_pair m).
Proof.
  split.
  - intros H pre m r Hs.
    exact (proj1 (pair_at_none_iff _) (find_pair_none_all s H pre _ Hs) m r eq_refl).
  - intros H. apply find_pair_none_intro. intros u v ->.
    apply pair_at_none_iff. intros m r ->. now apply (H u m r).
Qed.

(** The greedy reading is the longest occurrence at its position. *)
Lemma pair_at_is_longest v A B rest m r :
  pair_at v = Some (A, B, rest) -> v = m ++ r -> is_pair m ->
  length rest <= length r.
Proof.
  intros H -> Hm.
  destruct (pair_at_longest m r Hm) as (A' & B' & rest' & E & L).
  rewrite H in E. now injection E as <- <- <-.
Qed.

(** Conversely an occurrence that cannot be extended is the greedy one. *)
Lemma longest_no_digit_head A sp B post :
  decimal B ->
  (forall m r,
      pair A sp B ++ post = m ++ r -> is_pair m ->
      length m <= length (pair A sp B)) ->
  decimal A -> spaces sp ->
  no_digit_head post.
Proof.
  intros HB Hl HA Hsp. destruct post as [|c post]; [exact I|].
  simpl. destruct (is_digit c) eqn:Hc; [exfalso|reflexivity].
  specialize (Hl (pair A sp (B ++ [c])) post).
  rewrite !pair_length, length_app in Hl. simpl in Hl.
  enough (length A + 2 + length sp + (length B + 1)
          <= length A + 2 + length sp + length B) by lia.
  apply Hl.
  - rewrite !pair_app, <- app_assoc. reflexivity.
  - exists A, sp, (B ++ [c]). repeat split; try assumption.
    apply decimal_more_digits; [assumption|]. now constructor.
Qed.

Lemma swap_reversed s out : swap s = Some out -> reversed s out.
Proof.
  revert s out. apply swap_ind.
  - intros s H. constructor. now apply find_pair_none_occurs.
  - intros s pre A B rest out F _ IH.
    destruct (find_pair_split _ _ _ _ _ F) as (v & -> & Hv).
    destruct (pair_at_spec _ _ _ _ Hv) as (sp & -> & HA & Hsp & HB & Hr).
    constructor; try assumption.
    + intros pre1 m r Hs Hm.
      destruct (Nat.le_gt_cases (length pre) (length pre1)) as [L|L]; [assumption|].
      pose proof (find_pair_leftmost _ _ _ _ _ F pre1 (m ++ r) Hs L) as N.
      exfalso. exact (proj1 (pair_at_none_iff _) N m r eq_refl Hm).
    + intros m r Hs Hm.
      pose proof (pair_at_is_longest _ _ _ _ m r Hv Hs Hm) as L.
      apply (f_equal (@length _)) in Hs. rewrite !length_app in Hs. lia.
Qed.

Lemma reversed_swap s out : reversed s out -> swap s = Some out.
Proof.
  induction 1 as [s H|pre A sp B post out HA Hsp HB Hleft Hlong _ IH].
  - apply swap_none. now apply find_pair_none_occurs.
  - rewrite (swap_step _ pre A B post), IH; [reflexivity|].
    apply find_pair_intro.
    + apply pair_at_complete; try assumption.
      eapply longest_no_digit_head; eassumption.
    + intros u w Hs L. apply pair_at_none_iff. intros m r -> Hm.
      specialize (Hleft u m r Hs Hm). lia.
Qed.

(** C1: for every input text the substitution returns, and its result is
    the text in which every non-overlapping match of the pattern
    (number A, comma, newline, optional spaces, number B), taken leftmost
    first and scanning on immediately after each match, is replaced by
    B, comma, newline, A; no other text satisfies that description. *)
Theorem swap_replaces_every_leftmost_match (t : text) :
  exists out,
    swap t = Some out /\ reversed t out /\
    (forall out', reversed t out' -> out' = out).
Proof.
  destruct (swap_total t) as [out E]. exists out.
  split; [assumption|split].
  - now apply swap_reversed.
  - intros out' H. apply reversed_swap in H. congruence.
Qed.

(* ================================================================= *)
(** ** What the pattern matches *)

Lemma re_match_pattern s :
  re_match pattern s =
    match pair_at s with
    | Some (A, B, rest) => Some ([(2, B); (1, A)], rest)
    | None => None
    end.
Proof. apply match_here_pattern. Qed.

Lemma after_number_other c s :
  c <> minus -> is_digit c = false -> after_number (c :: s) = None.
Proof.
  intros Hm Hd. unfold after_number, number_head. simpl count.
  destruct (N.eqb_spec c minus) as [|_]; [contradiction|].
  simpl skipn. cbn [run_length]. unfold is_digit in Hd. now rewrite Hd.
Qed.

Lemma pair_at_separator A sp c x :
  decimal A -> spaces sp -> c <> space -> c <> minus -> is_digit c = false ->
  pair_at (A ++ comma :: NL :: sp ++ c :: x) = None.
Proof.
  intros HA Hsp Hs Hm Hd. unfold pair_at.
  rewrite (after_number_complete A) by (assumption || reflexivity).
  simpl andb. cbv iota zeta.
  apply spaces_in_cset in Hsp.
  rewrite (run_length_app (One space) sp (c :: x) Hsp).
  cbn [run_length in_cset].
  destruct (N.eqb_spec c space) as [|_]; [contradiction|].
  rewrite Nat.add_0_r, skipn_length_app.
  now rewrite after_number_other.
Qed.

(** C2: the pattern matches a text in full exactly when the text is a
    decimal number (optional minus sign, one or more digits, a decimal
    point, one or more digits), a comma, one newline, zero or more spaces
    and a second decimal number, and it then captures the two numbers; it
    matches at the start of a text exactly when the text starts with such
    a pair; any character other than a space before the second number
    prevents the match, as do a number without integer digits, without
    fraction digits or with an exponent. *)
Theorem pattern_matches_exactly_pairs :
  (forall m, (exists g, re_match pattern m = Some (g, [])) <-> is_pair m) /\
  (forall A sp B, decimal A -> spaces sp -> decimal B ->
     re_match pattern (pair A sp B) = Some ([(2, B); (1, A)], [])) /\
  (forall s, (exists g rest, re_match pattern s = Some (g, rest)) <->
             (exists m rest, s = m ++ rest /\ is_pair m)) /\
  (forall A sp c x, decimal A -> spaces sp ->
     c <> space -> c <> minus -> is_digit c = false ->
     re_match pattern (A ++ comma :: NL :: sp ++ c :: x) = None) /\
  re_match pattern (str "1.5," ++ [NL; TAB] ++ str "2.5") = None /\
  re_match pattern (str ".5," ++ [NL] ++ str "2.5") = None /\
  re_match pattern (str "5.," ++ [NL] ++ str "2.5") = None /\
  re_match pattern (str "1.5e3," ++ [NL] ++ str "2.5") = None /\
  re_match pattern (str "1.5," ++ [NL] ++ str "2e5") = None.
Proof.
  assert (Hfull : forall A sp B, decimal A -> spaces sp -> decimal B ->
            re_match pattern (pair A sp B) = Some ([(2, B); (1, A)], [])).
  { intros A sp B HA Hsp HB. rewrite re_match_pattern.
    rewrite <- (app_nil_r (pair A sp B)).
    now rewrite pair_at_complete. }
  split; [|split; [exact Hfull|split; [|split]]].
  - intros m. split.
    + intros [g H]. rewrite re_match_pattern in H.
      destruct (pair_at m) as [[[A B] rest]|] eqn:E; [|discriminate].
      injection H as <- ->.
      destruct (pair_at_is_pair _ _ _ _ E) as (m' & -> & Hm).
      now rewrite app_nil_r.
    + intros (A & sp & B & -> & HA & Hsp & HB). eexists. now apply Hfull.
  - intros s. split.
    + intros (g & rest & H). rewrite re_match_pattern in H.
      destruct (pair_at s) as [[[A B] rest']|] eqn:E; [|discriminate].
      destruct (pair_at_is_pair _ _ _ _ E) as (m & Hs & Hm). eauto.
    + intros (m & rest & -> & Hm).
      destruct (pair_at_longest m rest Hm) as (A & B & rest' & E & _).
      rewrite re_match_pattern, E. eauto.
  - intros A sp c x HA Hsp Hs Hm Hd.
    now rewrite re_match_pattern, pair_at_separator.
  - repeat split; vm_compute; reflexivity.
Qed.

(** C8: the text ["12.34,\n  -56.78"] becomes ["-56.78,\n12.34"]: number B,
    comma, newline, number A, with no leading spaces put back. *)
Theorem swap_concrete_pair :
  swap (str "12.34," ++ [NL] ++ str "  -56.78")
  = Some (str "-56.78," ++ [NL] ++ str "12.34").
Proof. vm_compute. reflexivity. Qed.

(** C9: in the diagnostic script, [re.match] of the pattern against
    ["oijf43.435093,\n-9043.90345jkkh"] is [None], the match being tried at
    the start of the string only, while the substitution on the same
    string finds the embedded pair and replaces it. *)
Theorem diagnostic_match_is_none :
  diagnostic_print = None /\
  swap (str "oijf43.435093," ++ [NL] ++ str "-9043.90345jkkh")
  = Some (str "oijf-9043.90345," ++ [NL] ++ str "43.435093jkkh").
Proof. split; vm_compute; reflexivity. Qed.

(* ================================================================= *)
(** ** Cutting a text where no occurrence crosses *)

Lemma app_prefix_short (x w m r : text) :
  x ++ w = m ++ r -> length m <= length x ->
  exists l, x = m ++ l /\ r = l ++ w.
Proof.
  intros H L. apply app_eq_app in H as [l [[-> ->]|[-> ->]]].
  - eauto.
  - rewrite length_app in L. destruct l; [|simpl in L; lia].
    exists []. now rewrite !app_nil_r.
Qed.

Lemma is_pair_nonempty m : is_pair m -> 2 <= length m.
Proof. intros (A & sp & B & -> & _). rewrite pair_length. lia. Qed.

Lemma clean_cut_suffix u1 u2 w : clean_cut (u1 ++ u2) w -> clean_cut u2 w.
Proof.
  intros H a b m r -> Hne Hs Hm. apply (H (u1 ++ a) b m r); auto.
  now rewrite app_assoc.
Qed.

(** Inside [u], in front of a clean cut, the greedy reading is the same
    with and without [w]. *)
Lemma pair_at_clean_cut u1 u2 w :
  clean_cut (u1 ++ u2) w -> u2 <> [] ->
  pair_at (u2 ++ w) =
    match pair_at u2 with
    | Some (A, B, rest) => Some (A, B, rest ++ w)
    | None => None
    end.
Proof.
  intros Hc Hne.
  destruct (pair_at (u2 ++ w)) as [[[A B] rest]|] eqn:E.
  - destruct (pair_at_spec _ _ _ _ E) as (sp & Hs & HA & Hsp & HB & Hr).
    assert (Hm : is_pair (pair A sp B)) by (exists A, sp, B; auto).
    pose proof (Hc u1 u2 _ _ eq_refl Hne Hs Hm) as L.
    destruct (app_prefix_short _ _ _ _ Hs L) as (l & -> & ->).
    rewrite pair_at_complete; auto.
    destruct l as [|c l]; [exact I|exact Hr].
  - destruct (pair_at u2) as [[[A B] rest]|] eqn:E2; [|reflexivity].
    destruct (pair_at_is_pair _ _ _ _ E2) as (m & -> & Hm).
    rewrite <- app_assoc in E.
    exfalso. exact (proj1 (pair_at_none_iff _) E m _ eq_refl Hm).
Qed.

Lemma find_pair_clean_cut u : forall w,
  clean_cut u w ->
  find_pair (u ++ w) =
    match find_pair u with
    | Some (pre, A, B, rest) => Some (pre, A, B, rest ++ w)
    | None =>
        match find_pair w with
        | Some (pre, A, B, rest) => Some (u ++ pre, A, B, rest)
        | None => None
        end
    end.
Proof.
  induction u as [|c u IH]; intros w Hc.
  - cbn [app find_pair].
    replace (pair_at []) with (@None (text * text * text)) by reflexivity.
    destruct (find_pair w) as [[[[pre A] B] rest]|]; reflexivity.
  - change ((c :: u) ++ w) with (c :: (u ++ w)). cbn [find_pair].
    change (c :: (u ++ w)) with ((c :: u) ++ w).
    rewrite (pair_at_clean_cut [] (c :: u) w Hc) by discriminate.
    destruct (pair_at (c :: u)) as [[[A B] rest]|]; [reflexivity|].
    rewrite IH by (apply (clean_cut_suffix [c]); exact Hc).
    destruct (find_pair u) as [[[[pre A] B] rest]|]; [reflexivity|].
    destruct (find_pair w) as [[[[pre A] B] rest]|]; reflexivity.
Qed.

(** The substitution of a text cut cleanly is the substitution of its
    two parts. *)
Lemma swap_app u w :
  clean_cut u w ->
  swap (u ++ w) =
    match swap u, swap w with
    | Some a, Some b => Some (a ++ b)
    | _, _ => None
    end.
Proof.
  remember (length u) as n eqn:Hn. revert u Hn.
  induction n as [n IH] using lt_wf_ind; intros u -> Hc.
  pose proof (find_pair_clean_cut u w Hc) as F.
  destruct (find_pair u) as [[[[pre A] B] rest]|] eqn:Fu.
  - rewrite (swap_step _ _ _ _ _ F), (swap_step _ _ _ _ _ Fu).
    pose proof (find_pair_shorter _ _ _ _ _ Fu) as L.
    destruct (find_pair_split _ _ _ _ _ Fu) as (v & Hu & Hv).
    destruct (pair_at_is_pair _ _ _ _ Hv) as (m & Hvm & _).
    rewrite (IH (length rest) ltac:(lia) rest eq_refl).
    + destruct (swap rest) as [a|]; [|reflexivity].
      destruct (swap w) as [b|]; [|reflexivity].
      now rewrite <- !app_assoc.
    + subst u v. apply (clean_cut_suffix (pre ++ m)).
      now rewrite <- app_assoc.
  - rewrite (swap_none u Fu).
    destruct (find_pair w) as [[[[pre A] B] rest]|] eqn:Fw.
    + rewrite (swap_step _ _ _ _ _ F), (swap_step _ _ _ _ _ Fw).
      destruct (swap rest) as [a|]; [|reflexivity].
      now rewrite <- !app_assoc.
    + now rewrite (swap_none _ F), (swap_none _ Fw).
Qed.

Lemma decimal_chars w : decimal w -> Forall (fun c => pattern_char c = true) w.
Proof.
  intros (sg & ip & fp & -> & Hsg & (_ & Hip) & (_ & Hfp)).
  assert (D : forall l, Forall (fun c => is_digit c = true) l ->
                        Forall (fun c => pattern_char c = true) l).
  { intros l. apply Forall_impl. intros c Hc. unfold pattern_char. now rewrite Hc. }
  apply Forall_app; split.
  - destruct Hsg as [-> | ->]; repeat constructor.
  - apply Forall_app; split; [now apply D|].
    constructor; [reflexivity|now apply D].
Qed.

Lemma is_pair_chars m : is_pair m -> Forall (fun c => pattern_char c = true) m.
Proof.
  intros (A & sp & B & -> & HA & Hsp & HB). unfold pair.
  apply Forall_app; split; [now apply decimal_chars|].
  constructor; [reflexivity|]. constructor; [reflexivity|].
  apply Forall_app; split; [|now apply decimal_chars].
  revert Hsp. apply Forall_impl. now intros c ->.
Qed.

(** An occurrence does not reach across a character the pattern cannot
    match. *)
Lemma no_cross_char u2 c w m r :
  pattern_char c = false -> u2 ++ c :: w = m ++ r -> is_pair m ->
  length m <= length u2.
Proof.
  intros Hc Hs Hm.
  apply app_eq_app in Hs as [l [[-> _]|[-> Hl]]].
  - rewrite length_app. lia.
  - destruct l as [|c' l]; [rewrite app_nil_r; lia|].
    injection Hl as <- _. exfalso.
    apply is_pair_chars in Hm. apply Forall_app in Hm as [_ Hm].
    inversion Hm; congruence.
Qed.

Lemma clean_cut_before u c w : pattern_char c = false -> clean_cut u (c :: w).
Proof.
  intros Hc u1 u2 m r _ _ Hs Hm. eapply no_cross_char; eassumption.
Qed.

Lemma clean_cut_after u c w : pattern_char c = false -> clean_cut (u ++ [c]) w.
Proof.
  intros Hc u1 u2 m r Hu Hne Hs Hm.
  destruct (exists_last Hne) as (l & c' & ->).
  rewrite app_assoc in Hu. apply app_inj_tail in Hu as [_ <-].
  rewrite <- app_assoc in Hs. simpl in Hs.
  pose proof (no_cross_char l c w m r Hc Hs Hm).
  rewrite length_app. lia.
Qed.

(* ================================================================= *)
(** ** Deciding the vocabulary on concrete texts *)

Lemma decimal_check w : after_number w = Some [] -> decimal w.
Proof.
  intros H. destruct (after_number_spec _ _ H) as (w' & -> & Hw & _).
  now rewrite app_nil_r.
Qed.

Lemma starts_with_app w b : starts_with w (w ++ b) = true.
Proof. induction w as [|c w IH]; simpl; [reflexivity|]. now rewrite N.eqb_refl. Qed.

Lemma occurs_in_app w a b : occurs_in w (a ++ w ++ b) = true.
Proof.
  induction a as [|c a IH]; simpl.
  - destruct (w ++ b) eqn:E; simpl; rewrite <- E, starts_with_app; reflexivity.
  - rewrite IH. apply orb_true_r.
Qed.

(* ================================================================= *)
(** ** The matched spans and the text around them *)

Lemma swap_segments s out :
  swap s = Some out ->
  exists segs tail,
    scanned s segs tail /\
    s = flat_map seg_in segs ++ tail /\
    out = flat_map seg_out segs ++ tail /\
    Forall seg_ok segs.
Proof.
  revert s out. apply swap_ind.
  - intros s F. exists [], s. split; [|repeat split; constructor].
    constructor. now rewrite search_pattern, F.
  - intros s pre A B rest out F _ (segs & tail & Hscan & Hin & -> & Hok).
    destruct (find_pair_split _ _ _ _ _ F) as (v & Hs & Hv).
    destruct (pair_at_spec _ _ _ _ Hv) as (sp & Hvs & HA & Hsp & HB & _).
    subst v.
    exists (Segment pre A sp B :: segs), tail. split; [|split; [|split]].
    + apply scanned_match with (rest := rest); [|assumption|assumption].
      now rewrite search_pattern, F.
    + rewrite Hs, Hin. simpl. unfold seg_in. simpl. now rewrite <- !app_assoc.
    + simpl. unfold seg_out. simpl. now rewrite <- !app_assoc.
    + constructor; [repeat split; assumption|assumption].
Qed.

(** The scan of a text finds one sequence of spans only. *)
Lemma scanned_unique s segs tail :
  scanned s segs tail ->
  forall segs' tail', scanned s segs' tail' -> segs' = segs /\ tail' = tail.
Proof.
  induction 1 as [s Hs|s pre A sp B rest segs tail Hs Heq _ IH];
    intros segs' tail' H'.
  - inversion H' as [s0 Hs'|s0 pre' A' sp' B' rest' segs0 tail0 Hs' Heq' Hrest'];
      subst; [auto|congruence].
  - inversion H' as [s0 Hs'|s0 pre' A' sp' B' rest' segs0 tail0 Hs' Heq' Hrest'];
      subst; [congruence|].
    rewrite Hs in Hs'. injection Hs' as <- <- <- <-.
    apply app_inv_head in Heq'. rewrite !pair_app in Heq'.
    apply app_inv_head in Heq'. injection Heq' as Heq'.
    rewrite !app_assoc in Heq'. apply app_inv_tail in Heq'.
    apply app_inv_tail in Heq'. subst sp'.
    destruct (IH _ _ Hrest') as [-> ->]. auto.
Qed.

(** C5: with the spans the scan of [re.sub] matches (and it matches one
    sequence of spans only), the input is the texts the scan skips, each
    followed by its matched span, and the text after the last match; the
    output is the same skipped texts and the same last text, unchanged
    and in the same order, each matched span (A, comma, newline, spaces,
    B) rewritten to (B, comma, newline, A); and in any text containing
    ["oijf43.435093,\n-9043.90345jkkh"] the embedded pair is swapped, with
    ["oijf"] and ["jkkh"] left as they are. *)
Theorem swap_rewrites_only_matched_spans :
  (forall t, exists out segs tail,
      swap t = Some out /\
      scanned t segs tail /\
      (forall segs' tail', scanned t segs' tail' -> segs' = segs /\ tail' = tail) /\
      t = flat_map seg_in segs ++ tail /\
      out = flat_map seg_out segs ++ tail /\
      Forall seg_ok segs) /\
  (forall u v, exists u' v',
      swap u = Some u' /\ swap v = Some v' /\
      swap (u ++ (str "oijf43.435093," ++ [NL] ++ str "-9043.90345jkkh") ++ v)
      = Some (u' ++ (str "oijf-9043.90345," ++ [NL] ++ str "43.435093jkkh") ++ v')).
Proof.
  split.
  - intros t. destruct (swap_total t) as [out E].
    destruct (swap_segments _ _ E) as (segs & tail & H0 & H1 & H2 & H3).
    exists out, segs, tail.
    split; [assumption|]. split; [assumption|].
    split; [now apply scanned_unique|auto].
  - intros u v.
    destruct (swap_total u) as [u' Eu]. destruct (swap_total v) as [v' Ev].
    exists u', v'. split; [assumption|split; [assumption|]].
    set (M := str "oijf43.435093," ++ [NL] ++ str "-9043.90345jkkh").
    assert (EM : swap (M ++ v) =
              Some ((str "oijf-9043.90345," ++ [NL] ++ str "43.435093jkkh") ++ v')).
    { change M with
        ((str "oijf43.435093," ++ [NL] ++ str "-9043.90345jkk") ++ [104%N]).
      rewrite swap_app by (now apply clean_cut_after).
      rewrite Ev. reflexivity. }
    rewrite swap_app.
    + now rewrite Eu, EM.
    + change (M ++ v) with (111%N :: (skipn 1 M ++ v)).
      now apply clean_cut_before.
Qed.

(* ================================================================= *)
(** ** A pair inside a larger text *)

(** C6, as it stands, fails on ["1.2,\n3.4,\n   5.6"]: the text contains
    ["3.4,\n   5.6"], but the scan has consumed ["3.4"] as the second number
    of the match before, and the output nowhere contains ["5.6,\n3.4"]. *)
Lemma overlapped_pair_not_swapped :
  decimal (str "3.4") /\ spaces (str "   ") /\ decimal (str "5.6") /\
  swap ((str "1.2," ++ [NL]) ++ pair (str "3.4") (str "   ") (str "5.6") ++ [])
  = Some (str "3.4," ++ [NL] ++ str "1.2," ++ [NL] ++ str "   5.6") /\
  (forall a b,
      str "3.4," ++ [NL] ++ str "1.2," ++ [NL] ++ str "   5.6"
      <> a ++ swapped (str "3.4") (str "5.6") ++ b).
Proof.
  split; [now apply decimal_check|].
  split; [repeat constructor|].
  split; [now apply decimal_check|].
  split; [vm_compute; reflexivity|].
  intros a b H.
  pose proof (occurs_in_app (swapped (str "3.4") (str "5.6")) a b) as O.
  rewrite <- H in O. vm_compute in O. discriminate.
Qed.

(** C6, amended: when no match that starts before the substring reaches
    into it and number B is not followed by a further digit, the output
    is the transformed text before it, then B, comma, newline, A (the
    spaces before B removed), then the transformed text after it. *)
Theorem swap_of_embedded_pair (pre A sp B post : text) :
  decimal A -> spaces sp -> decimal B ->
  clean_cut pre (pair A sp B ++ post) ->
  no_digit_head post ->
  exists pre' post',
    swap pre = Some pre' /\ swap post = Some post' /\
    swap (pre ++ pair A sp B ++ post) = Some (pre' ++ swapped A B ++ post').
Proof.
  intros HA Hsp HB Hc Hp.
  destruct (swap_total pre) as [pre' Epre].
  destruct (swap_total post) as [post' Epost].
  exists pre', post'. split; [assumption|split; [assumption|]].
  rewrite (swap_app _ _ Hc), Epre.
  rewrite (swap_step _ [] A B post), Epost; [reflexivity|].
  apply (find_pair_intro []).
  - now apply pair_at_complete.
  - intros u w _ L. simpl in L. lia.
Qed.

Lemma swap_of_embedded_pair_witness :
  exists pre' post',
    swap (str "[") = Some pre' /\ swap (str "],") = Some post' /\
    swap (str "[" ++ pair (str "-1.25") (str "   ") (str "30.5") ++ str "],")
    = Some (pre' ++ swapped (str "-1.25") (str "30.5") ++ post').
Proof.
  apply (swap_of_embedded_pair (str "[") (str "-1.25") (str "   ")
           (str "30.5") (str "],")).
  - apply decimal_check. reflexivity.
  - repeat constructor.
  - apply decimal_check. reflexivity.
  - apply (clean_cut_after [] 91%N). reflexivity.
  - reflexivity.
Defined.

(* ================================================================= *)
(** ** The characters of the output *)

Lemma spaces_repeat sp : spaces sp -> sp = repeat space (length sp).
Proof. induction 1 as [|c sp -> _ IH]; simpl; [reflexivity|]. now f_equal. Qed.

Lemma swap_counts s out :
  swap s = Some out ->
  exists k, forall x,
    count_occ N.eq_dec s x = count_occ N.eq_dec (out ++ repeat space k) x.
Proof.
  revert s out. apply swap_ind.
  - intros s _. exists 0. intros x. simpl. now rewrite app_nil_r.
  - intros s pre A B rest out F _ [k IH].
    destruct (find_pair_split _ _ _ _ _ F) as (v & -> & Hv).
    destruct (pair_at_spec _ _ _ _ Hv) as (sp & -> & _ & Hsp & _ & _).
    exists (length sp + k). intros x.
    rewrite repeat_app.
    change (pair A sp B) with (A ++ [comma; NL] ++ sp ++ B).
    change (swapped A B) with (B ++ [comma; NL] ++ A).
    rewrite (spaces_repeat sp Hsp) at 1.
    rewrite !count_occ_app, IH, !count_occ_app. lia.
Qed.

(** C10: the characters of the output are those of the input less some
    space characters; so the output has as many newline characters as the
    input and is not longer. *)
Theorem swap_keeps_characters (t : text) :
  exists out k,
    swap t = Some out /\
    Permutation t (out ++ repeat space k) /\
    count_occ N.eq_dec out NL = count_occ N.eq_dec t NL /\
    length out <= length t.
Proof.
  destruct (swap_total t) as [out E].
  destruct (swap_counts _ _ E) as [k Hk].
  exists out, k. split; [assumption|].
  assert (P : Permutation t (out ++ repeat space k)).
  { now apply (Permutation_count_occ N.eq_dec). }
  split; [assumption|split].
  - rewrite Hk, count_occ_app.
    rewrite (count_occ_repeat_neq N.eq_dec); [|discriminate].
    now rewrite Nat.add_0_r.
  - apply Permutation_length in P. rewrite length_app in P. lia.
Qed.

(* ================================================================= *)
(** ** Writing the result back *)

(** Written from the start and cut at the new length, the file holds the
    new bytes and no tail of the old ones. *)
Lemma rewrite_from_start (old new : bytes) :
  firstn (length new) (pad_to (length new) (new ++ skipn (length new) old))
  = new.
Proof.
  unfold pad_to.
  rewrite <- app_assoc, firstn_app, Nat.sub_diag, firstn_all.
  cbn [firstn]. apply app_nil_r.
Qed.

Lemma reverse_file_inv P name fs fs' :
  reverse_file P name fs = Some fs' ->
  exists old t out new,
    fs name = Some old /\ decode P old = Some t /\
    swap (nl_in t) = Some out /\
    encode P (nl_out (linesep P) out) = Some new /\
    fs' = store name new fs.
Proof.
  unfold reverse_file, open_rw, read, write, close, seek.
  destruct (fs name) as [old|] eqn:Ef; [|discriminate].
  cbn [pos data skipn].
  destruct (decode P old) as [t|] eqn:Ed; [|discriminate].
  destruct (swap (nl_in t)) as [out|] eqn:Es; [|discriminate].
  cbn [pos data].
  destruct (encode P (nl_out (linesep P) out)) as [new|] eqn:Ee; [|discriminate].
  intros [= <-]. exists old, t, out, new.
  rewrite rewrite_from_start. auto.
Qed.

Lemma store_same name b fs : store name b fs name = Some b.
Proof. unfold store. now rewrite String.eqb_refl. Qed.

Lemma store_other name b fs other : other <> name -> store name b fs other = fs other.
Proof.
  intros H. unfold store. destruct (String.eqb_spec other name); [contradiction|reflexivity].
Qed.

(** C7: after a successful run the named file holds exactly the
    transformed text as encoded, the previous content being replaced as a
    whole (seek to the start, write, truncate at the new length): nothing
    of the old content is left behind it, also when the new content is
    shorter; no other file changes. *)
Theorem reverse_file_replaces_content P name fs fs' :
  reverse_file P name fs = Some fs' ->
  exists old t out new,
    fs name = Some old /\ decode P old = Some t /\
    swap (nl_in t) = Some out /\
    encode P (nl_out (linesep P) out) = Some new /\
    fs' name = Some new /\
    (forall other, other <> name -> fs' other = fs other).
Proof.
  intros H.
  destruct (reverse_file_inv _ _ _ _ H) as (old & t & out & new & H1 & H2 & H3 & H4 & ->).
  exists old, t, out, new. repeat split; try assumption.
  - apply store_same.
  - intros other Ho. now apply store_other.
Qed.

Lemma reverse_file_replaces_content_witness :
  exists old t out new,
    store "sample_map.js" (raw "12.34," ++ [Byte.x0a] ++ raw "  -56.78") no_files
      "sample_map.js"%string = Some old /\
    decode posix_latin1 old = Some t /\
    swap (nl_in t) = Some out /\
    encode posix_latin1 (nl_out (linesep posix_latin1) out) = Some new /\
    store "sample_map.js" (raw "-56.78," ++ [Byte.x0a] ++ raw "12.34")
      (store "sample_map.js" (raw "12.34," ++ [Byte.x0a] ++ raw "  -56.78") no_files)
      "sample_map.js"%string = Some new /\
    (forall other, other <> "sample_map.js"%string ->
       store "sample_map.js" (raw "-56.78," ++ [Byte.x0a] ++ raw "12.34")
         (store "sample_map.js" (raw "12.34," ++ [Byte.x0a] ++ raw "  -56.78") no_files)
         other
       = store "sample_map.js" (raw "12.34," ++ [Byte.x0a] ++ raw "  -56.78")
           no_files other).
Proof.
  apply (reverse_file_replaces_content posix_latin1 "sample_map.js").
  vm_compute. reflexivity.
Defined.

(* ================================================================= *)
(** ** A text without matches *)

Lemma nl_in_id t : ~ In CR t -> nl_in t = t.
Proof.
  induction t as [|c t IH]; intros H; [reflexivity|].
  cbn [nl_in]. destruct (N.eqb_spec c CR) as [->|_].
  - exfalso. apply H. now left.
  - f_equal. apply IH. intros Hin. apply H. now right.
Qed.

Lemma nl_out_id t : nl_out [NL] t = t.
Proof.
  induction t as [|c t IH]; [reflexivity|].
  unfold nl_out in *. cbn [flat_map]. rewrite IH.
  destruct (N.eqb_spec c NL) as [->|_]; reflexivity.
Qed.

Lemma swap_no_occurrence t :
  (forall pre m r, t = pre ++ m ++ r -> ~ is_pair m) -> swap t = Some t.
Proof. intros H. apply swap_none. now apply find_pair_none_occurs. Qed.




(* ================================================================= *)
(** ** A one-pass recogniser: does an occurrence start here? *)

Lemma run_app q u v :
  run q (u ++ v) = match run q u with Some q' => run q' v | None => None end.
Proof.
  revert q; induction u as [|c u IH]; intros q; simpl; [reflexivity|].
  destruct (step q c); [apply IH|reflexivity].
Qed.

Lemma run_Frac2 s : run Frac2 s = Some Frac2.
Proof. induction s; simpl; auto. Qed.

Lemma is_digit_not c :
  is_digit c = true ->
  N.eqb c minus = false /\ N.eqb c dot = false /\ N.eqb c comma = false /\
  N.eqb c NL = false /\ N.eqb c space = false.
Proof.
  intros H. apply is_digit_iff in H.
  repeat split; apply N.eqb_neq; intros ->;
    unfold minus, dot, comma, NL, space in H; lia.
Qed.

(** Through a run of digits the reading moves to [q1] and stays there. *)
Lemma run_digits q q1 ds r :
  (forall d, is_digit d = true -> step q d = Some q1) ->
  (forall d, is_digit d = true -> step q1 d = Some q1) ->
  digits ds -> run q (ds ++ r) = run q1 r.
Proof.
  intros H0 H1 [Hne Hds].
  destruct ds as [|d ds]; [congruence|].
  inversion Hds as [|? ? Hd Hds']; subst. simpl. rewrite (H0 d Hd).
  clear Hne Hds Hd H0. induction Hds' as [|e ds He _ IH]; simpl; [reflexivity|].
  now rewrite (H1 e He).
Qed.

Ltac digit_step :=
  let d := fresh "d" in let Hd := fresh "Hd" in
  intros d Hd; destruct (is_digit_not d Hd) as (? & ? & ? & ? & ?);
  simpl; repeat match goal with H : _ = false |- _ => rewrite H end;
  rewrite ?Hd; reflexivity.

Lemma run_spaces sp r : spaces sp -> run Gap (sp ++ r) = run Gap r.
Proof. induction 1 as [|c sp -> _ IH]; simpl; auto. Qed.

(** An unsigned number, read as the first number. *)
Lemma run_unsigned_first q ip fp r :
  q = Start \/ q = Sign1 \/ q = Int1 ->
  digits ip -> digits fp ->
  run q ((ip ++ dot :: fp) ++ r) = run Frac1 r.
Proof.
  intros Hq Hip Hfp. rewrite <- app_assoc.
  rewrite (run_digits q Int1) by
    (try assumption; destruct Hq as [->|[->| ->]]; digit_step).
  simpl. rewrite (run_digits Dot1 Frac1) by (try assumption; digit_step).
  reflexivity.
Qed.

(** An unsigned number, read as the second number. *)
Lemma run_unsigned_second q ip fp r :
  q = Gap \/ q = Sign2 \/ q = Int2 ->
  digits ip -> digits fp ->
  run q ((ip ++ dot :: fp) ++ r) = Some Frac2.
Proof.
  intros Hq Hip Hfp. rewrite <- app_assoc.
  rewrite (run_digits q Int2) by
    (try assumption; destruct Hq as [->|[->| ->]]; digit_step).
  simpl. rewrite (run_digits Dot2 Frac2) by (try assumption; digit_step).
  apply run_Frac2.
Qed.

Lemma run_unsigned_Dot2 ip fp r :
  digits ip -> run Dot2 ((ip ++ dot :: fp) ++ r) = Some Frac2.
Proof.
  intros Hip. rewrite <- app_assoc.
  rewrite (run_digits Dot2 Frac2) by (try assumption; digit_step).
  apply run_Frac2.
Qed.

(** Inside a fraction a second point ends the reading. *)
Lemma run_unsigned_frac q ip fp r :
  q = Dot1 \/ q = Frac1 ->
  digits ip -> run q ((ip ++ dot :: fp) ++ r) = None.
Proof.
  intros Hq Hip. rewrite <- app_assoc.
  rewrite (run_digits q Frac1) by
    (try assumption; destruct Hq as [->| ->]; digit_step).
  reflexivity.
Qed.

Lemma decimal_sign w :
  decimal w <-> unsigned w \/ exists w', w = minus :: w' /\ unsigned w'.
Proof.
  split.
  - intros (sg & ip & fp & -> & [-> | ->] & Hip & Hfp).
    + left. exists ip, fp. auto.
    + right. exists (ip ++ dot :: fp). split; [reflexivity|]. exists ip, fp. auto.
  - intros [(ip & fp & -> & Hip & Hfp)|(w' & -> & ip & fp & -> & Hip & Hfp)].
    + exists [], ip, fp. auto.
    + exists [minus], ip, fp. auto.
Qed.

Lemma run_second w r : decimal w -> run Gap (w ++ r) = Some Frac2.
Proof.
  intros H. apply decimal_sign in H as [(ip & fp & -> & Hip & Hfp)|
                                        (w' & -> & ip & fp & -> & Hip & Hfp)].
  - apply run_unsigned_second; auto.
  - simpl. apply run_unsigned_second; auto.
Qed.

Lemma run_first w r : decimal w -> run Start (w ++ r) = run Frac1 r.
Proof.
  intros H. apply decimal_sign in H as [(ip & fp & -> & Hip & Hfp)|
                                        (w' & -> & ip & fp & -> & Hip & Hfp)].
  - apply run_unsigned_first; auto.
  - simpl. apply run_unsigned_first; auto.
Qed.

Lemma run_separator sp w r :
  spaces sp -> decimal w -> run Frac1 (comma :: NL :: sp ++ w ++ r) = Some Frac2.
Proof.
  intros Hsp Hw. simpl. rewrite run_spaces by assumption. now apply run_second.
Qed.

(** The recogniser accepts wherever an occurrence starts. *)
Lemma run_complete m r : is_pair m -> run Start (m ++ r) = Some Frac2.
Proof.
  intros (A & sp & B & -> & HA & Hsp & HB).
  rewrite pair_app, run_first by assumption. now apply run_separator.
Qed.

Lemma digits_cons d ds : is_digit d = true -> all_digits ds -> digits (d :: ds).
Proof. intros Hd Hds. split; [discriminate|now constructor]. Qed.

Lemma digits_all ds : digits ds -> all_digits ds.
Proof. now intros [_ H]. Qed.

Lemma decimal_unsigned_intro ds d :
  digits ds -> is_digit d = true -> decimal (ds ++ [dot; d]).
Proof.
  intros Hds Hd. exists [], ds, [d].
  split; [reflexivity|]. split; [now left|]. split; [assumption|].
  split; [discriminate|now constructor].
Qed.

Lemma decimal_signed_intro ds d :
  digits ds -> is_digit d = true -> decimal (minus :: ds ++ [dot; d]).
Proof.
  intros Hds Hd. exists [minus], ds, [d].
  split; [reflexivity|]. split; [now right|]. split; [assumption|].
  split; [discriminate|now constructor].
Qed.

Lemma all_digits_cons d ds : is_digit d = true -> all_digits ds -> all_digits (d :: ds).
Proof. intros; now constructor. Qed.

Create HintDb reach.
#[local] Hint Resolve digits_cons digits_all all_digits_cons : reach.
#[local] Hint Extern 1 (all_digits []) => constructor : reach.
#[local] Hint Extern 1 (spaces []) => constructor : reach.

(** The recogniser accepts only where an occurrence starts. *)
Lemma run_sound s : forall q, run q s = Some Frac2 -> reaches q s.
Proof.
  induction s as [|c s IH]; intros q H; simpl in H.
  - injection H as ->. exact I.
  - destruct (step q c) as [q'|] eqn:E; [|discriminate].
    apply IH in H. destruct q; simpl in E.
    + (* Start *)
      destruct (N.eqb_spec c minus) as [->|_].
      * injection E as <-.
        destruct H as (ip & fp & t & -> & Hip & Hfp & sp & w & r & -> & Hsp & Hw).
        exists (pair (minus :: ip ++ dot :: fp) sp w), r. split.
        -- rewrite pair_app. simpl. now rewrite <- app_assoc.
        -- exists (minus :: ip ++ dot :: fp), sp, w.
           refine (conj eq_refl (conj _ (conj Hsp Hw))).
           exists [minus], ip, fp.
           exact (conj eq_refl (conj (or_intror eq_refl) (conj Hip Hfp))).
      * destruct (is_digit c) eqn:Hc; [|discriminate]. injection E as <-.
        destruct H as (ip & fp & t & -> & Hip & Hfp & sp & w & r & -> & Hsp & Hw).
        exists (pair ((c :: ip) ++ dot :: fp) sp w), r. split.
        -- rewrite pair_app. simpl. now rewrite <- app_assoc.
        -- exists ((c :: ip) ++ dot :: fp), sp, w.
           refine (conj eq_refl (conj _ (conj Hsp Hw))).
           exists [], (c :: ip), fp.
           refine (conj eq_refl (conj (or_introl eq_refl) (conj _ Hfp))).
           auto with reach.
    + (* Sign1 *)
      destruct (is_digit c) eqn:Hc; [|discriminate]. injection E as <-.
      destruct H as (ip & fp & t & -> & Hip & Hfp & Ht).
      exists (c :: ip), fp, t.
      refine (conj eq_refl (conj _ (conj Hfp Ht))). auto with reach.
    + (* Int1 *)
      destruct (is_digit c) eqn:Hc.
      * injection E as <-. destruct H as (ip & fp & t & -> & Hip & Hfp & Ht).
        exists (c :: ip), fp, t.
        refine (conj eq_refl (conj _ (conj Hfp Ht))). auto with reach.
      * destruct (N.eqb_spec c dot) as [->|_]; [|discriminate]. injection E as <-.
        destruct H as (fp & t & -> & Hfp & Ht).
        exists [], fp, t.
        refine (conj eq_refl (conj _ (conj Hfp Ht))). auto with reach.
    + (* Dot1 *)
      destruct (is_digit c) eqn:Hc; [|discriminate]. injection E as <-.
      destruct H as (fp & t & -> & Hfp & Ht).
      exists (c :: fp), t. refine (conj eq_refl (conj _ Ht)). auto with reach.
    + (* Frac1 *)
      destruct (is_digit c) eqn:Hc.
      * injection E as <-. destruct H as (fp & t & -> & Hfp & Ht).
        exists (c :: fp), t. refine (conj eq_refl (conj _ Ht)). auto with reach.
      * destruct (N.eqb_spec c comma) as [->|_]; [|discriminate]. injection E as <-.
        destruct H as (t & -> & Ht).
        exists [], t. refine (conj eq_refl (conj _ Ht)). auto with reach.
    + (* Comma *)
      destruct (N.eqb_spec c NL) as [->|_]; [|discriminate]. injection E as <-.
      exists s. split; [reflexivity|exact H].
    + (* Gap *)
      destruct (N.eqb_spec c space) as [->|_].
      * injection E as <-. destruct H as (sp & w & r & -> & Hsp & Hw).
        exists (space :: sp), w, r.
        refine (conj eq_refl (conj _ Hw)). now constructor.
      * destruct (N.eqb_spec c minus) as [->|_].
        -- injection E as <-. destruct H as (ds & d & r & -> & Hds & Hd).
           exists [], (minus :: ds ++ [dot; d]), r. split; [|split].
           ++ simpl. now rewrite <- app_assoc.
           ++ constructor.
           ++ now apply decimal_signed_intro.
        -- destruct (is_digit c) eqn:Hc; [|discriminate]. injection E as <-.
           destruct H as (ds & d & r & -> & Hds & Hd).
           exists [], ((c :: ds) ++ [dot; d]), r. split; [|split].
           ++ simpl. now rewrite <- app_assoc.
           ++ constructor.
           ++ apply decimal_unsigned_intro; auto with reach.
    + (* Sign2 *)
      destruct (is_digit c) eqn:Hc; [|discriminate]. injection E as <-.
      destruct H as (ds & d & r & -> & Hds & Hd).
      exists (c :: ds), d, r. refine (conj eq_refl (conj _ Hd)). auto with reach.
    + (* Int2 *)
      destruct (is_digit c) eqn:Hc.
      * injection E as <-. destruct H as (ds & d & r & -> & Hds & Hd).
        exists (c :: ds), d, r. refine (conj eq_refl (conj _ Hd)). auto with reach.
      * destruct (N.eqb_spec c dot) as [->|_]; [|discriminate]. injection E as <-.
        destruct H as (d & r & -> & Hd).
        exists [], d, r. refine (conj eq_refl (conj _ Hd)). auto with reach.
    + (* Dot2 *)
      destruct (is_digit c) eqn:Hc; [|discriminate].
      exists c, s. auto.
    + exact I.
Qed.

(** The recogniser and the greedy reading agree on whether an occurrence
    starts here. *)
Lemma pair_at_none_run s : pair_at s = None <-> run Start s <> Some Frac2.
Proof.
  split.
  - intros H R. apply run_sound in R as (m & r & -> & Hm).
    exact (proj1 (pair_at_none_iff _) H m r eq_refl Hm).
  - intros H. apply pair_at_none_iff. intros m r -> Hm.
    apply H. now apply run_complete.
Qed.

(* ================================================================= *)
(** ** Substituting twice *)

Lemma last_char_app prev u v :
  last_char prev (u ++ v) = last_char (last_char prev u) v.
Proof. revert prev; induction u as [|c u IH]; intros prev; simpl; auto. Qed.

Lemma last_char_digits prev ds : digits ds -> joins (last_char prev ds) = true.
Proof.
  intros [Hne Hds]. revert prev. induction Hds as [|c ds Hc Hds IH]; [congruence|].
  intros prev. simpl. destruct ds as [|d ds].
  - simpl. now rewrite Hc.
  - apply IH. discriminate.
Qed.

Lemma decimal_last prev w : decimal w -> joins (last_char prev w) = true.
Proof.
  intros (sg & ip & fp & -> & _ & _ & Hfp).
  rewrite !last_char_app. simpl. now apply last_char_digits.
Qed.

Lemma unsigned_not_negative w : unsigned w -> negative w = false.
Proof.
  intros (ip & fp & -> & (Hne & Hip) & _).
  destruct ip as [|d ip]; [congruence|]. inversion Hip; subst. simpl.
  now destruct (is_digit_not d) as (-> & _).
Qed.

Lemma decimal_cases w :
  decimal w ->
  (negative w = false /\ unsigned w) \/
  (negative w = true /\ exists w', w = minus :: w' /\ unsigned w').
Proof.
  intros H. apply decimal_sign in H as [H|(w' & -> & H)].
  - left. split; [now apply unsigned_not_negative|assumption].
  - right. split; [reflexivity|eauto].
Qed.

Lemma run_completes q A B X :
  decimal A -> decimal B -> completes q A = true ->
  run q (A ++ comma :: NL :: B ++ X) = Some Frac2.
Proof.
  intros HA HB Hq.
  assert (S : forall r, run Frac1 (comma :: NL :: B ++ r) = Some Frac2).
  { intros r. apply (run_separator [] B r); [constructor|assumption]. }
  destruct (decimal_cases A HA) as [[Hn (ip & fp & -> & Hip & Hfp)]|
                                    [Hn (A' & -> & ip & fp & -> & Hip & Hfp)]].
  - destruct q; simpl in Hq; rewrite ?Hn in Hq; try discriminate Hq;
      first [ solve [rewrite run_unsigned_first by auto; apply S]
            | solve [apply run_unsigned_second; auto]
            | solve [apply run_unsigned_Dot2; auto]
            | apply run_Frac2 ].
  - destruct q; simpl in Hq; try discriminate.
    + change (run Sign1 ((ip ++ dot :: fp) ++ comma :: NL :: B ++ X) = Some Frac2).
      rewrite run_unsigned_first by auto. apply S.
    + change (run Sign2 ((ip ++ dot :: fp) ++ comma :: NL :: B ++ X) = Some Frac2).
      apply run_unsigned_second; auto.
    + apply run_Frac2.
Qed.

Lemma run_stops q B Z :
  decimal B -> stops q B = true -> run q (B ++ Z) = None.
Proof.
  intros HB Hq.
  destruct (decimal_cases B HB) as [[Hn (ip & fp & -> & Hip & Hfp)]|
                                    [Hn (B' & -> & ip & fp & -> & Hip & Hfp)]].
  - destruct q; simpl in Hq; rewrite ?Hn in Hq; try discriminate Hq;
      try solve [apply run_unsigned_frac; auto].
    destruct Hip as [Hne Hip]. destruct ip as [|d ip]; [congruence|].
    inversion Hip; subst. simpl.
    now destruct (is_digit_not d) as (_ & _ & _ & -> & _).
  - destruct q; simpl in Hq; try discriminate; reflexivity.
Qed.

Lemma step_joins q c q' :
  step q c = Some q' -> joins (Some c) = false ->
  q' = Comma \/ q' = Gap \/ q' = Frac2.
Proof.
  unfold joins. intros E J.
  apply orb_false_iff in J as [J Hdot]. apply orb_false_iff in J as [Hd Hm].
  destruct q; simpl in E; rewrite ?Hd, ?Hm, ?Hdot in E; try discriminate;
    repeat match type of E with
           | (if ?b then _ else _) = _ => destruct b; try discriminate
           end;
    injection E as <-; auto.
Qed.

Lemma run_joins u : forall q0 q prev,
  u <> [] -> run q0 u = Some q -> joins (last_char prev u) = false ->
  q = Comma \/ q = Gap \/ q = Frac2.
Proof.
  induction u as [|c u IH]; intros q0 q prev Hne R J; [congruence|].
  simpl in R. destruct (step q0 c) as [q1|] eqn:E; [|discriminate].
  destruct u as [|c' u].
  - simpl in *. injection R as <-. eapply step_joins; eassumption.
  - apply (IH q1 q (Some c)); [discriminate|assumption|exact J].
Qed.

(** In front of a swapped pair no occurrence starts where none started
    in front of the pair. *)
Lemma no_early_match u A B X Y prev :
  u <> [] -> decimal A -> decimal B ->
  pair_at (u ++ pair A [] B ++ X) = None ->
  (negative A = true -> negative B = false ->
   joins (last_char prev u) = false) ->
  pair_at (u ++ pair B [] A ++ Y) = None.
Proof.
  intros Hne HA HB Hx Hc.
  apply pair_at_none_run in Hx. apply pair_at_none_run.
  rewrite run_app, pair_app in *. simpl app in *.
  destruct (run Start u) as [q|] eqn:R; [|discriminate].
  destruct (completes q A) eqn:Cq.
  { exfalso. apply Hx. now apply run_completes. }
  destruct (stops q B) eqn:Sq.
  { rewrite run_stops by assumption. discriminate. }
  exfalso.
  assert (Hs : negative A = true /\ negative B = false).
  { destruct q; simpl in Cq, Sq; try discriminate;
      apply negb_false_iff in Cq; auto. }
  destruct Hs as [H1 H2].
  destruct (run_joins u Start q prev Hne R (Hc H1 H2)) as [->|[->| ->]];
    discriminate.
Qed.

Lemma search_pattern_none s :
  search pattern false s = None -> find_pair s = None.
Proof.
  rewrite search_pattern.
  destruct (find_pair s) as [[[[pre A] B] rest]|]; [discriminate|reflexivity].
Qed.

Lemma search_pattern_some s pre A B rest :
  search pattern false s = Some (pre, [(2, B); (1, A)], rest) ->
  find_pair s = Some (pre, A, B, rest).
Proof.
  rewrite search_pattern.
  destruct (find_pair s) as [[[[pre' A'] B'] rest']|]; [|discriminate].
  now intros [= -> -> -> ->].
Qed.

Lemma negative_no_digit_head w r : negative w = true -> no_digit_head (w ++ r).
Proof.
  destruct w as [|c w]; [discriminate|]. simpl.
  intros H. apply N.eqb_eq in H. now subst c.
Qed.

Lemma digit_head_not_negative w r :
  decimal w -> no_digit_head (w ++ r) -> negative w = true.
Proof.
  intros Hw Hh.
  destruct (decimal_cases w Hw) as [[_ (ip & fp & -> & (Hne & Hip) & _)]|[H _]];
    [|assumption].
  destruct ip as [|d ip]; [congruence|]. inversion Hip; subst.
  simpl in Hh. congruence.
Qed.

(** On a settled text the second pass restores the first pass's input;
    and behind a character that joins, the output goes on with a digit
    only if the input does. *)
Lemma settled_round_trip prev s :
  settled prev s ->
  forall y, swap s = Some y ->
    swap y = Some s /\
    (joins prev = true -> no_digit_head s -> no_digit_head y).
Proof.
  induction 1 as [prev s Hs|prev s pre A B rest Hs Heq Hc _ IH]; intros y Hy.
  - apply search_pattern_none in Hs.
    rewrite (swap_none s Hs) in Hy. injection Hy as <-.
    split; [now apply swap_none|auto].
  - apply search_pattern_some in Hs.
    rewrite (swap_step _ _ _ _ _ Hs) in Hy.
    destruct (swap rest) as [out|] eqn:Er; [|discriminate].
    injection Hy as <-.
    destruct (IH out eq_refl) as [IH1 IH2].
    destruct (find_pair_split _ _ _ _ _ Hs) as (v & Hv & Hp).
    destruct (pair_at_spec _ _ _ _ Hp) as (sp & _ & HA & _ & HB & Hr).
    assert (Hout : no_digit_head out).
    { apply IH2; [now apply decimal_last|assumption]. }
    assert (F : find_pair (pre ++ pair B [] A ++ out) = Some (pre, B, A, out)).
    { apply find_pair_intro.
      - apply pair_at_complete; auto. constructor.
      - intros u w Huw L.
        destruct (app_prefix_short pre _ u w Huw ltac:(lia)) as (l & -> & ->).
        assert (Hl : l <> []).
        { intros ->. rewrite app_nil_r in L. lia. }
        apply (no_early_match l A B rest out (last_char prev u)); auto.
        + apply (find_pair_leftmost _ _ _ _ _ Hs u); [|exact L].
          rewrite Heq. now rewrite <- app_assoc.
        + rewrite <- last_char_app. exact Hc. }
    change (swapped A B) with (pair B [] A).
    split.
    + rewrite (swap_step _ _ _ _ _ F), IH1. rewrite Heq. reflexivity.
    + intros Hprev Hh. rewrite Heq in Hh.
      destruct pre as [|c pre]; [|exact Hh].
      simpl app in *. rewrite pair_app in *.
      pose proof (digit_head_not_negative A _ HA Hh) as HnA.
      destruct (negative B) eqn:HnB.
      * now apply negative_no_digit_head.
      * specialize (Hc HnA eq_refl). simpl in Hc. congruence.
Qed.

(** C4, as it stands, fails on ["5-1.2,\n3.4"]: neither pass drops a space
    (the three texts have the same length), yet the second pass gives
    ["-1.2,\n53.4"], the ["3.4"] having joined the ["5"] in front of it. *)
Lemma round_trip_fails_without_spaces :
  swap (str "5-1.2," ++ [NL] ++ str "3.4") = Some (str "53.4," ++ [NL] ++ str "-1.2") /\
  swap (str "53.4," ++ [NL] ++ str "-1.2") = Some (str "-1.2," ++ [NL] ++ str "53.4") /\
  length (str "53.4," ++ [NL] ++ str "-1.2") = length (str "5-1.2," ++ [NL] ++ str "3.4") /\
  length (str "-1.2," ++ [NL] ++ str "53.4") = length (str "53.4," ++ [NL] ++ str "-1.2") /\
  str "-1.2," ++ [NL] ++ str "53.4" <> str "5-1.2," ++ [NL] ++ str "3.4".
Proof.
  repeat split; try (vm_compute; reflexivity). discriminate.
Qed.

(** C4, amended: the transformation is not idempotent (applied to
    ["1.2,\n3.4"] it gives ["3.4,\n1.2"], and applied again it gives
    ["1.2,\n3.4"] back, not ["3.4,\n1.2"]); and applying it twice returns
    the input whenever, in every pair the scan matches, no spaces precede
    the second number and, if the first number is negative and the second
    is not, the pair is not directly preceded by a digit, a minus sign or
    a decimal point. *)
Theorem swap_twice :
  (swap (str "1.2," ++ [NL] ++ str "3.4") = Some (str "3.4," ++ [NL] ++ str "1.2") /\
   swap (str "3.4," ++ [NL] ++ str "1.2") = Some (str "1.2," ++ [NL] ++ str "3.4") /\
   str "1.2," ++ [NL] ++ str "3.4" <> str "3.4," ++ [NL] ++ str "1.2") /\
  (forall x y, settled None x -> swap x = Some y -> swap y = Some x).
Proof.
  split.
  - repeat split; try (vm_compute; reflexivity). discriminate.
  - intros x y Hx Hy. exact (proj1 (settled_round_trip None x Hx y Hy)).
Qed.

Lemma swap_twice_witness :
  swap (str "[-3.5," ++ [NL] ++ str "4.5],[1.5," ++ [NL] ++ str "-2.5]")
  = Some (str "[4.5," ++ [NL] ++ str "-3.5],[-2.5," ++ [NL] ++ str "1.5]") /\
  swap (str "[4.5," ++ [NL] ++ str "-3.5],[-2.5," ++ [NL] ++ str "1.5]")
  = Some (str "[-3.5," ++ [NL] ++ str "4.5],[1.5," ++ [NL] ++ str "-2.5]").
Proof.
  split; [vm_compute; reflexivity|].
  apply (proj2 swap_twice
           (str "[-3.5," ++ [NL] ++ str "4.5],[1.5," ++ [NL] ++ str "-2.5]")).
  - eapply (settled_pair None _ (str "[") (str "-3.5") (str "4.5")).
    + vm_compute. reflexivity.
    + reflexivity.
    + reflexivity.
    + eapply (settled_pair _ _ (str "],[") (str "1.5") (str "-2.5")).
      * vm_compute. reflexivity.
      * reflexivity.
      * discriminate.
      * apply settled_none. vm_compute. reflexivity.
  - vm_compute. reflexivity.
Defined.


(* ================================================================= *)
(** ** Texts split by characters the pattern cannot match *)

Lemma swap_short s : length s < 2 -> swap s = Some s.
Proof.
  intros L. apply swap_no_occurrence. intros pre m r -> Hm.
  apply is_pair_nonempty in Hm. rewrite !length_app in L. lia.
Qed.

(** X1: a character the pattern cannot match (anything but a digit, a
    minus sign, a decimal point, a comma, a newline or a space) splits
    the text: the substitution works on the part before it and on the
    part after it separately and leaves the character in place. *)
Theorem swap_splits_at_other_char (u : text) (c : char) (w : text) :
  pattern_char c = false ->
  exists u' w',
    swap u = Some u' /\ swap w = Some w' /\
    swap (u ++ c :: w) = Some (u' ++ c :: w').
Proof.
  intros Hc.
  destruct (swap_total u) as [u' Eu]. destruct (swap_total w) as [w' Ew].
  exists u', w'. split; [assumption|split; [assumption|]].
  rewrite (swap_app u (c :: w)) by (now apply clean_cut_before).
  change (c :: w) with ([c] ++ w).
  rewrite (swap_app [c] w) by (now apply (clean_cut_after [])).
  rewrite Eu, Ew, (swap_short [c]) by (simpl; lia). reflexivity.
Qed.

Lemma swap_splits_at_other_char_witness :
  exists u' w',
    swap (str "1.5," ++ [NL] ++ str " 2.5") = Some u' /\
    swap (str "-3.5," ++ [NL] ++ str "4.5") = Some w' /\
    swap ((str "1.5," ++ [NL] ++ str " 2.5") ++ 93%N :: str "-3.5," ++ [NL] ++ str "4.5")
    = Some (u' ++ 93%N :: w').
Proof.
  apply (swap_splits_at_other_char (str "1.5," ++ [NL] ++ str " 2.5") 93%N).
  reflexivity.
Defined.

(* ================================================================= *)
(** ** A document of separated pairs *)

Lemma no_start_inb_sound u W : no_start_inb u W = true -> no_start_in u W.
Proof.
  induction u as [|c u IH]; intros H u1 u2 m r Hu Hne Hs Hm.
  - symmetry in Hu. apply app_eq_nil in Hu as [_ ->]. congruence.
  - cbn [no_start_inb] in H.
    destruct (pair_at ((c :: u) ++ W)) as [p|] eqn:E; [discriminate|].
    destruct u1 as [|c' u1]; simpl in Hu.
    + subst u2. rewrite Hs in E.
      exact (proj1 (pair_at_none_iff _) E m r eq_refl Hm).
    + injection Hu as _ Hu. exact (IH H u1 u2 m r Hu Hne Hs Hm).
Qed.

Lemma find_pair_behind_filler pre A sp B R :
  decimal A -> spaces sp -> decimal B ->
  no_start_in pre (pair A sp B ++ R) -> no_digit_head R ->
  find_pair (pre ++ pair A sp B ++ R) = Some (pre, A, B, R).
Proof.
  intros HA Hsp HB Hn Hr. apply find_pair_intro.
  - now apply pair_at_complete.
  - intros u w Huw L.
    destruct (app_prefix_short pre _ u w Huw ltac:(lia)) as (l & -> & ->).
    apply pair_at_none_iff. intros m r Hs Hm.
    apply (Hn u l m r eq_refl); auto.
    intros ->. rewrite app_nil_r in L. lia.
Qed.

(** X2: in a document of separated coordinate pairs (in front of each
    pair a filler in which no match starts, behind each pair no further
    digit, no match after the last pair) the substitution swaps every
    pair, drops the spaces before its second number and leaves the
    fillers and the end of the document as they are. *)
Theorem swap_of_separated_document (segs : list segment) (tail : text) :
  separated segs tail ->
  swap (flat_map seg_in segs ++ tail) = Some (flat_map seg_out segs ++ tail).
Proof.
  induction 1 as [tail Ht|g segs tail (HA & Hsp & HB) Hn Hr _ IH].
  - simpl. now apply swap_no_occurrence.
  - cbn [flat_map]. unfold seg_in at 1, seg_out at 1.
    rewrite <- !app_assoc.
    rewrite (swap_step _ (seg_pre g) (seg_A g) (seg_B g)
               (flat_map seg_in segs ++ tail)).
    + now rewrite IH.
    + now apply find_pair_behind_filler.
Qed.

Lemma swap_of_separated_document_witness :
  swap (flat_map seg_in
          [Segment (str "[" ++ [NL] ++ str "    ") (str "-122.5") (str "    ") (str "37.25");
           Segment ([NL] ++ str "]," ++ [NL] ++ str "[" ++ [NL] ++ str "    ")
                   (str "1.5") (str "    ") (str "-2.5")]
        ++ [NL] ++ str "]")
  = Some (flat_map seg_out
          [Segment (str "[" ++ [NL] ++ str "    ") (str "-122.5") (str "    ") (str "37.25");
           Segment ([NL] ++ str "]," ++ [NL] ++ str "[" ++ [NL] ++ str "    ")
                   (str "1.5") (str "    ") (str "-2.5")]
        ++ [NL] ++ str "]").
Proof.
  apply swap_of_separated_document.
  apply separated_cons.
  - split; [now apply decimal_check|split; [repeat constructor|now apply decimal_check]].
  - apply no_start_inb_sound. vm_compute. reflexivity.
  - reflexivity.
  - apply separated_cons.
    + split; [now apply decimal_check|split; [repeat constructor|now apply decimal_check]].
    + apply no_start_inb_sound. vm_compute. reflexivity.
    + reflexivity.
    + apply separated_nil. apply find_pair_none_occurs. vm_compute. reflexivity.
Defined.

(* ================================================================= *)
(** ** The numbers of a match are not cut short *)

Lemma last_char_inv pre : forall prev c,
  last_char prev pre = Some c ->
  (pre = [] /\ prev = Some c) \/ exists pre', pre = pre' ++ [c].
Proof.
  induction pre as [|d pre IH]; intros prev c H; simpl in H; [now left|].
  right. destruct (IH _ _ H) as [[-> [= ->]]|[pre' ->]].
  - now exists [].
  - now exists (d :: pre').
Qed.

Lemma unsigned_extend c w :
  unsigned w -> is_digit c = true \/ c = minus -> decimal (c :: w).
Proof.
  intros (ip & fp & -> & Hip & Hfp) [Hc| ->].
  - exists [], (c :: ip), fp.
    refine (conj eq_refl (conj (or_introl eq_refl) (conj _ Hfp))).
    apply digits_cons; [assumption|now apply digits_all].
  - exists [minus], ip, fp. auto.
Qed.

(** X3: the first match the search finds is not cut short: its second
    number is not followed by a further digit, and a first number without
    sign is not directly preceded by a digit or a minus sign. *)
Theorem search_match_is_maximal (s pre A B rest : text) :
  search pattern false s = Some (pre, [(2, B); (1, A)], rest) ->
  no_digit_head rest /\
  (negative A = false ->
   forall c, last_char None pre = Some c -> is_digit c = false /\ c <> minus).
Proof.
  intros Hs. apply search_pattern_some in Hs.
  destruct (find_pair_split _ _ _ _ _ Hs) as (v & -> & Hv).
  destruct (pair_at_spec _ _ _ _ Hv) as (sp & -> & HA & Hsp & HB & Hr).
  split; [assumption|].
  intros Hn c Hc.
  destruct (last_char_inv _ _ _ Hc) as [[_ [=]]|[pre' ->]].
  assert (Hu : unsigned A).
  { destruct (decimal_cases A HA) as [[_ H]|[H _]]; [assumption|congruence]. }
  assert (N : pair_at (c :: pair A sp B ++ rest) = None).
  { apply (find_pair_leftmost _ _ _ _ _ Hs pre').
    - now rewrite <- app_assoc.
    - rewrite length_app. simpl. lia. }
  assert (K : ~ (is_digit c = true \/ c = minus)).
  { intros Hd.
    apply (proj1 (pair_at_none_iff _) N (pair (c :: A) sp B) rest).
    - now rewrite !pair_app.
    - exists (c :: A), sp, B.
      refine (conj eq_refl (conj _ (conj Hsp HB))).
      now apply unsigned_extend. }
  split.
  - destruct (is_digit c); [exfalso; apply K; now left|reflexivity].
  - intros ->. apply K. now right.
Qed.

Lemma search_match_is_maximal_witness :
  no_digit_head (str "x") /\
  (negative (str "2.3") = false ->
   forall c, last_char None (str "1.") = Some c -> is_digit c = false /\ c <> minus).
Proof.
  apply (search_match_is_maximal (str "1.2.3," ++ [NL] ++ str "-4.5x")
           (str "1.") (str "2.3") (str "-4.5") (str "x")).
  vm_compute. reflexivity.
Defined.

(* ================================================================= *)
(** ** Carriage returns *)

Lemma nl_in_no_CR t : ~ In CR (nl_in t).
Proof.
  remember (length t) as n eqn:Hn. revert t Hn.
  induction n as [n IH] using lt_wf_ind; intros t ->.
  destruct t as [|c t]; [intros []|].
  cbn [nl_in]. destruct (N.eqb_spec c CR) as [->|Hc].
  - intros [H|H]; [discriminate|]. revert H.
    destruct t as [|d t]; [intros []|].
    destruct (N.eqb d NL).
    + apply (IH (length t)); simpl; [lia|reflexivity].
    + apply (IH (length (d :: t))); simpl; [lia|reflexivity].
  - intros [H|H]; [congruence|]. revert H.
    apply (IH (length t)); simpl; [lia|reflexivity].
Qed.

Lemma swap_in s out x : swap s = Some out -> In x out -> In x s.
Proof.
  intros H Hin. destruct (swap_counts _ _ H) as [k Hk].
  apply (count_occ_In N.eq_dec). rewrite Hk, count_occ_app.
  apply (count_occ_In N.eq_dec) in Hin.
  unfold gt in *. now apply Nat.lt_lt_add_r.
Qed.

(** X5: where the line separator is the newline character, the text the
    script writes back holds no carriage return, whatever the file held:
    reading has turned every one into a newline and the substitution
    brings none in. *)
Theorem written_text_has_no_carriage_return P name fs fs' :
  reverse_file P name fs = Some fs' ->
  linesep P = [NL] ->
  exists out new,
    encode P out = Some new /\ fs' name = Some new /\ ~ In CR out.
Proof.
  intros H Hsep.
  destruct (reverse_file_inv _ _ _ _ H) as (old & t & out & new & _ & _ & Hs & He & ->).
  rewrite Hsep, nl_out_id in He.
  exists out, new. split; [assumption|split; [apply store_same|]].
  intros Hin. apply (nl_in_no_CR t). eapply swap_in; eassumption.
Qed.

Lemma written_text_has_no_carriage_return_witness :
  exists out new,
    encode posix_latin1 out = Some new /\
    store "sample_map.js" (raw "2.5," ++ [Byte.x0a] ++ raw "1.5" ++ [Byte.x0a])
      (store "sample_map.js"
         (raw "1.5," ++ [Byte.x0d; Byte.x0a] ++ raw " 2.5" ++ [Byte.x0d]) no_files)
      "sample_map.js"%string = Some new /\
    ~ In CR out.
Proof.
  apply (written_text_has_no_carriage_return posix_latin1 "sample_map.js"
           (store "sample_map.js"
              (raw "1.5," ++ [Byte.x0d; Byte.x0a] ++ raw " 2.5" ++ [Byte.x0d]) no_files)).
  - vm_compute. reflexivity.
  - reflexivity.
Defined.

(* ================================================================= *)
(** ** Running the script twice *)

Lemma store_id name b (fs : filesystem) :
  fs name = Some b -> forall n, store name b fs n = fs n.
Proof.
  intros H n. unfold store.
  destruct (String.eqb_spec n name) as [->|_]; [now rewrite H|reflexivity].
Qed.

Lemma store_store name b1 b2 fs n :
  store name b2 (store name b1 fs) n = store name b2 fs n.
Proof. unfold store. destruct (String.eqb n name); reflexivity. Qed.

(** The script changes the named file to [rewritten] of its bytes. *)
Lemma reverse_file_rewritten P name fs :
  reverse_file P name fs =
    match fs name with
    | Some old =>
        match rewritten P old with
        | Some new => Some (store name new fs)
        | None => None
        end
    | None => None
    end.
Proof.
  unfold reverse_file, rewritten, open_rw, read, write, close, seek.
  destruct (fs name) as [old|]; [|reflexivity].
  cbn [pos data skipn].
  destruct (decode P old) as [t|]; [|reflexivity].
  destruct (swap (nl_in t)) as [out|]; [|reflexivity].
  cbn [pos data].
  destruct (encode P (nl_out (linesep P) out)) as [new|]; [|reflexivity].
  unfold truncate. cbn [pos data Nat.add firstn app].
  now rewrite rewrite_from_start.
Qed.

(** X6: a second run undoes the first.  Where the line separator is the
    newline character and the codec decodes what it encoded, a file whose
    text holds no carriage return, is encoded to the file's own bytes and
    is settled (no spaces before a second number; no pair with a negative
    first and a non-negative second number directly behind a digit, a
    minus sign or a decimal point) holds its original bytes again after
    the script has run twice. *)
Theorem second_run_restores_file P name fs fs1 old t :
  linesep P = [NL] ->
  (forall x b, encode P x = Some b -> decode P b = Some x) ->
  fs name = Some old -> decode P old = Some t -> encode P t = Some old ->
  ~ In CR t -> settled None t ->
  reverse_file P name fs = Some fs1 ->
  exists fs2,
    reverse_file P name fs1 = Some fs2 /\ fs2 name = Some old /\
    (forall n, fs2 n = fs n).
Proof.
  intros Hsep Hcodec Hf Hd He Hcr Hset H1.
  destruct (reverse_file_inv _ _ _ _ H1)
    as (old' & t' & out & new & Hf' & Hd' & Hs & Hn & ->).
  rewrite Hf in Hf'. injection Hf' as <-.
  rewrite Hd in Hd'. injection Hd' as <-.
  rewrite (nl_in_id t Hcr) in Hs. rewrite Hsep, nl_out_id in Hn.
  assert (Hout : ~ In CR out).
  { intros Hin. apply Hcr. eapply swap_in; eassumption. }
  pose proof (proj1 (settled_round_trip None t Hset out Hs)) as Hback.
  exists (store name old (store name new fs)). split; [|split].
  - rewrite reverse_file_rewritten, store_same. unfold rewritten.
    now rewrite (Hcodec _ _ Hn), (nl_in_id out Hout), Hback, Hsep, nl_out_id, He.
  - apply store_same.
  - intros n. rewrite store_store. now apply store_id.
Qed.

Lemma latin1_decodes_encoded x : forall b,
  latin1_encode x = Some b -> latin1_decode b = Some x.
Proof.
  unfold latin1_decode.
  induction x as [|c x IH]; intros b H; simpl in H.
  - now injection H as <-.
  - destruct (Byte.of_N c) as [y|] eqn:Ey; [|discriminate].
    destruct (latin1_encode x) as [r|]; [|discriminate].
    injection H as <-. specialize (IH r eq_refl). injection IH as IH.
    simpl. now rewrite (Byte.to_of_N c Ey), IH.
Qed.

Lemma second_run_restores_file_witness :
  exists fs2,
    reverse_file posix_latin1 "sample_map.js"
      (store "sample_map.js"
         (raw "[4.5," ++ [Byte.x0a] ++ raw "-3.5],[-2.5," ++ [Byte.x0a] ++ raw "1.5]")
         (store "sample_map.js"
            (raw "[-3.5," ++ [Byte.x0a] ++ raw "4.5],[1.5," ++ [Byte.x0a] ++ raw "-2.5]")
            no_files))
    = Some fs2 /\
    fs2 "sample_map.js"%string
    = Some (raw "[-3.5," ++ [Byte.x0a] ++ raw "4.5],[1.5," ++ [Byte.x0a] ++ raw "-2.5]") /\
    (forall n,
        fs2 n = store "sample_map.js"
                  (raw "[-3.5," ++ [Byte.x0a] ++ raw "4.5],[1.5," ++ [Byte.x0a] ++ raw "-2.5]")
                  no_files n).
Proof.
  apply (second_run_restores_file posix_latin1 "sample_map.js"
           (store "sample_map.js"
              (raw "[-3.5," ++ [Byte.x0a] ++ raw "4.5],[1.5," ++ [Byte.x0a] ++ raw "-2.5]")
              no_files)
           _ _
           (str "[-3.5," ++ [NL] ++ str "4.5],[1.5," ++ [NL] ++ str "-2.5]")).
  - reflexivity.
  - exact latin1_decodes_encoded.
  - reflexivity.
  - reflexivity.
  - reflexivity.
  - vm_compute. intuition discriminate.
  - eapply (settled_pair None _ (str "[") (str "-3.5") (str "4.5")).
    + vm_compute. reflexivity.
    + reflexivity.
    + reflexivity.
    + eapply (settled_pair _ _ (str "],[") (str "1.5") (str "-2.5")).
      * vm_compute. reflexivity.
      * reflexivity.
      * discriminate.
      * apply settled_none. vm_compute. reflexivity.
  - vm_compute. reflexivity.
Defined.

(* ================================================================= *)
(** ** The two scripts *)

Lemma store_swap n1 n2 b1 b2 fs n :
  n1 <> n2 ->
  store n2 b2 (store n1 b1 fs) n = store n1 b1 (store n2 b2 fs) n.
Proof.
  intros Hne. unfold store.
  destruct (String.eqb_spec n n2) as [E2|_]; destruct (String.eqb_spec n n1) as [E1|_];
    try reflexivity.
  congruence.
Qed.

Lemma reverse_file_commute P n1 n2 fs :
  n1 <> n2 ->
  match (fs1 <- reverse_file P n1 fs ;; reverse_file P n2 fs1),
        (fs2 <- reverse_file P n2 fs ;; reverse_file P n1 fs2) with
  | Some a, Some b => forall n, a n = b n
  | None, None => True
  | _, _ => False
  end.
Proof.
  intros Hne. rewrite !reverse_file_rewritten.
  destruct (fs n1) as [o1|] eqn:E1; destruct (fs n2) as [o2|] eqn:E2;
    try destruct (rewritten P o1) as [w1|] eqn:R1;
    try destruct (rewritten P o2) as [w2|] eqn:R2;
    rewrite ?reverse_file_rewritten, ?store_other, ?E1, ?E2, ?R1, ?R2 by auto;
    auto.
  intros n. now apply store_swap.
Qed.

(** X8: when running the plain script and then the diagnostic one
    succeeds, running them the other way round succeeds too, and
    conversely; and every file then holds the same bytes after either
    order, each script reading and writing its own file only. *)
Theorem scripts_commute P fs :
  (forall a,
      (fs1 <- demo_script P fs ;; diagnostic_script P fs1) = Some a ->
      exists b,
        (fs2 <- diagnostic_script P fs ;; demo_script P fs2) = Some b /\
        forall n, a n = b n) /\
  (forall b,
      (fs2 <- diagnostic_script P fs ;; demo_script P fs2) = Some b ->
      exists a,
        (fs1 <- demo_script P fs ;; diagnostic_script P fs1) = Some a /\
        forall n, a n = b n).
Proof.
  pose proof (reverse_file_commute P "sample_map.js" "sample_map3.js" fs
                ltac:(discriminate)) as H.
  unfold demo_script, diagnostic_script.
  destruct (fs1 <- reverse_file P "sample_map.js" fs ;;
            reverse_file P "sample_map3.js" fs1) as [a|];
    destruct (fs2 <- reverse_file P "sample_map3.js" fs ;;
              reverse_file P "sample_map.js" fs2) as [b|];
    try contradiction.
  - split; intros x [= <-]; eauto.
  - split; discriminate.
Qed.

Lemma scripts_commute_witness :
  exists b,
    (fs2 <- diagnostic_script posix_latin1
              (store "sample_map.js" (raw "1.5," ++ [Byte.x0a] ++ raw " 2.5")
                 (store "sample_map3.js" (raw "-3.5," ++ [Byte.x0a] ++ raw "4.5")
                    no_files)) ;;
     demo_script posix_latin1 fs2) = Some b /\
    forall n,
      store "sample_map3.js" (raw "4.5," ++ [Byte.x0a] ++ raw "-3.5")
        (store "sample_map.js" (raw "2.5," ++ [Byte.x0a] ++ raw "1.5")
           (store "sample_map.js" (raw "1.5," ++ [Byte.x0a] ++ raw " 2.5")
              (store "sample_map3.js" (raw "-3.5," ++ [Byte.x0a] ++ raw "4.5")
                 no_files))) n
      = b n.
Proof.
  apply (proj1 (scripts_commute posix_latin1
                  (store "sample_map.js" (raw "1.5," ++ [Byte.x0a] ++ raw " 2.5")
                     (store "sample_map3.js" (raw "-3.5," ++ [Byte.x0a] ++ raw "4.5")
                        no_files)))).
  vm_compute. reflexivity.
Defined.

(* ================================================================= *)
(** ** What the diagnostic script prints *)

Lemma last100_app (x w : text) : 100 <= length w -> last100 (x ++ w) = last100 w.
Proof.
  intros L. unfold last100. rewrite length_app, skipn_app.
  rewrite skipn_all2 by lia.
  replace (length x + length w - 100 - length x) with (length w - 100) by lia.
  reflexivity.
Qed.

Lemma last100_length t : length (last100 t) = Nat.min 100 (length t).
Proof. unfold last100. rewrite length_skipn. lia. Qed.

(** X9: the diagnostic script prints at most a hundred characters each
    time; and when the text read ends in a hundred or more characters
    without a match, cut off cleanly from what is before them, the print
    before and the print after the substitution show the same text, the
    end of the file, whatever was swapped before it. *)
Theorem diagnostic_prints_same_tail P fs old t u w :
  fs "sample_map3.js"%string = Some old -> decode P old = Some t ->
  nl_in t = u ++ w ->
  clean_cut u w ->
  (forall pre m r, w = pre ++ m ++ r -> ~ is_pair m) ->
  100 <= length w ->
  diagnostic_output P fs = Some (last100 w, None, last100 w) /\
  length (last100 w) = 100.
Proof.
  intros Hf Hd Ht Hc Hw L.
  split; [|rewrite last100_length; lia].
  unfold diagnostic_output, open_rw, read. rewrite Hf. cbn [pos data skipn].
  rewrite Hd, Ht, (swap_app u w Hc), (swap_no_occurrence w Hw).
  destruct (swap_total u) as [u' ->].
  rewrite !last100_app by assumption.
  replace diagnostic_print with (@None (groups * text)) by (vm_compute; reflexivity).
  reflexivity.
Qed.

Lemma diagnostic_prints_same_tail_witness :
  diagnostic_output posix_latin1
    (store "sample_map3.js"
       (raw "1.5," ++ [Byte.x0a] ++ raw " 2.5]" ++ repeat Byte.x78 100) no_files)
  = Some (last100 (repeat 120%N 100), None, last100 (repeat 120%N 100)) /\
  length (last100 (repeat 120%N 100)) = 100.
Proof.
  apply (diagnostic_prints_same_tail posix_latin1 _
           (raw "1.5," ++ [Byte.x0a] ++ raw " 2.5]" ++ repeat Byte.x78 100)
           (str "1.5," ++ [NL] ++ str " 2.5]" ++ repeat 120%N 100)
           (str "1.5," ++ [NL] ++ str " 2.5]") (repeat 120%N 100)).
  - reflexivity.
  - vm_compute. reflexivity.
  - vm_compute. reflexivity.
  - apply (clean_cut_after (str "1.5," ++ [NL] ++ str " 2.5") 93%N). reflexivity.
  - apply find_pair_none_occurs. vm_compute. reflexivity.
  - vm_compute. lia.
Defined.
